(** * Cal Events Discovery: the client-side filter pipeline

    A shallow embedding of the event filter of the [App] component
    ([SEARCH_SYNONYMS], [expandSearchQuery], [WHOLE_WORD_ONLY],
    [BERKELEY_LOCATIONS], [isHomeGame], [eventMatchesSearch] and the
    [filteredEvents] callback) and of the types of [types.ts], together
    with the slice of the JavaScript runtime those functions call:
    string primitives, [RegExp] word boundaries, property lookup on an
    object literal, spread, [Array.prototype.filter] and [Date].

    Modelling conventions.
    - A JavaScript string is a [string]; a character is one code unit in
      the range 0..255 (Latin-1).  On that range [toLowerCase], [trim]
      and the regular-expression classes [\s], [\w], [\b] are exact.
    - A field of an event read from the JSON snapshot is a [JsField]:
      the key may be missing ([Undefined]), hold [null] ([Null]) or hold
      a value of the declared type ([Val]).
    - A computation that can raise is a [Completion]; the only exception
      the modelled code can raise is a [TypeError].
    - A [Date] is its time value: [Some t], milliseconds since the epoch
      in UTC, or [None] for an invalid date (NaN).  A date-only string
      [YYYY-MM-DD] is parsed as midnight UTC, as the language
      specification lays down for [Date.parse].
    - The host is a record [Host]: the offset of local time from UTC
      (taken constant, so no daylight-saving switch inside the week that
      is looked at) and the parser the host uses for date strings that
      are not in the date-only form [YYYY-MM-DD].  A [Zone] lets the
      offset depend on the instant; the date filter is given for both.
    - The clock reads [now] once per filter pass. *)

From Stdlib Require Import ZArith List Bool Ascii String Lia.
Import ListNotations.

Open Scope string_scope.
Open Scope list_scope.
Open Scope Z_scope.

(* ------------------------------------------------------------------ *)
(** ** Completions: normal results and thrown exceptions *)

Module Js.

Inductive JsError : Type :=
| TypeError.

Inductive Completion (A : Type) : Type :=
| Normal (a : A)
| Throw (err : JsError).

Arguments Normal {A} a.
Arguments Throw {A} err.

Definition bind {A B : Type} (c : Completion A) (k : A -> Completion B) : Completion B :=
  match c with
  | Normal a => k a
  | Throw err => Throw err
  end.

Definition throws {A : Type} (c : Completion A) : bool :=
  match c with
  | Normal _ => false
  | Throw _ => true
  end.

(** A property read from a JSON object. *)
Inductive JsField (A : Type) : Type :=
| Undefined
| Null
| Val (a : A).

Arguments Undefined {A}.
Arguments Null {A}.
Arguments Val {A} a.

End Js.
Export Js.

Notation "x <- c ;; k" := (bind c (fun x => k))
  (at level 61, c at next level, right associativity).

(* ------------------------------------------------------------------ *)
(** ** Characters *)

Definition code (c : ascii) : N := N_of_ascii c.

Definition between (lo hi : N) (c : ascii) : bool :=
  (N.leb lo (code c) && N.leb (code c) hi)%bool.

(** [A-Z] *)
Definition isAsciiUpper (c : ascii) : bool := between 65 90 c.

(** [a-z] *)
Definition isAsciiLower (c : ascii) : bool := between 97 122 c.

(** [0-9] *)
Definition isDigit (c : ascii) : bool := between 48 57 c.

(** Upper-case letters of Latin-1: A-Z, U+00C0..U+00D6, U+00D8..U+00DE. *)
Definition isUpper (c : ascii) : bool :=
  (isAsciiUpper c || between 192 214 c || between 216 222 c)%bool.

(** The lower-case partner of an upper-case letter is 32 code points up. *)
Definition toLowerChar (c : ascii) : ascii :=
  if isUpper c then ascii_of_N (code c + 32) else c.

(** WhiteSpace and LineTerminator code points below 256:
    TAB, LF, VT, FF, CR, SP, NBSP.  This is also the class [\s]. *)
Definition isWhiteSpace (c : ascii) : bool :=
  (between 9 13 c || N.eqb (code c) 32 || N.eqb (code c) 160)%bool.

(** The class [\w] of a regular expression without the [u] flag:
    [A-Za-z0-9_]. *)
Definition isWordChar (c : ascii) : bool :=
  (isAsciiUpper c || isAsciiLower c || isDigit c || N.eqb (code c) 95)%bool.

(** Canonicalisation of the [i] flag for a pattern character that is an
    ASCII letter: a text character matches when both have the same ASCII
    upper-case form.  (A character outside ASCII never canonicalises to
    an ASCII one.) *)
Definition toUpperAscii (c : ascii) : ascii :=
  if isAsciiLower c then ascii_of_N (code c - 32) else c.

Definition ci_eqb (p c : ascii) : bool :=
  Ascii.eqb (toUpperAscii p) (toUpperAscii c).

(* ------------------------------------------------------------------ *)
(** ** Strings *)

Fixpoint map_string (f : ascii -> ascii) (s : string) : string :=
  match s with
  | EmptyString => EmptyString
  | String c s' => String (f c) (map_string f s')
  end.

(** [String.prototype.toLowerCase] *)
Definition toLowerCase (s : string) : string := map_string toLowerChar s.

Fixpoint trimStart (s : string) : string :=
  match s with
  | EmptyString => EmptyString
  | String c s' => if isWhiteSpace c then trimStart s' else s
  end.

(** Drops the white space at the end: a white-space character is kept
    only when something that is kept follows it. *)
Fixpoint trimEnd (s : string) : string :=
  match s with
  | EmptyString => EmptyString
  | String c s' =>
      match trimEnd s' with
      | EmptyString => if isWhiteSpace c then EmptyString else String c EmptyString
      | r => String c r
      end
  end.

(** [String.prototype.trim] *)
Definition trim (s : string) : string := trimEnd (trimStart s).

(** [String.prototype.includes]: [sub] occurs in [s] at some position. *)
Fixpoint includes (s sub : string) : bool :=
  (String.prefix sub s ||
   match s with
   | EmptyString => false
   | String _ s' => includes s' sub
   end)%bool.

(** [Array.prototype.includes] on an array of strings. *)
Definition arrayIncludes (l : list string) (x : string) : bool :=
  existsb (String.eqb x) l.

(** [s.split(/\s+/)]: the pieces between the maximal runs of white space.
    A run at the very start or end leaves an empty piece there, and the
    empty string splits into one empty piece.  [cur] is the piece being
    read, [inRun] says that the previous character was white space. *)
Fixpoint splitWsFrom (cur : string) (inRun : bool) (s : string) : list string :=
  match s with
  | EmptyString => [cur]
  | String c s' =>
      if isWhiteSpace c then
        if inRun then splitWsFrom EmptyString true s'
        else cur :: splitWsFrom EmptyString true s'
      else splitWsFrom (cur ++ String c EmptyString) false s'
  end.

Definition splitWhitespace (s : string) : list string :=
  splitWsFrom EmptyString false s.

(** [Array.prototype.join] with separator [sep]. *)
Fixpoint join (sep : string) (l : list string) : string :=
  match l with
  | [] => EmptyString
  | [x] => x
  | x :: r => x ++ sep ++ join sep r
  end.

(** [[...new Set(terms)]]: each string once, at its first position. *)
Fixpoint dedup (l : list string) : list string :=
  match l with
  | [] => []
  | x :: r => x :: filter (fun y => negb (String.eqb x y)) (dedup r)
  end.

(* ------------------------------------------------------------------ *)
(** ** Regular expressions: [new RegExp(`\\b${term}\\b`, 'i').test(text)]

    The pattern is built only for a member of [WHOLE_WORD_ONLY], so
    [term] is a run of ASCII letters: the pattern is the assertion [\b],
    the letters of [term] matched without regard to case, and [\b]
    again.  [test] tries every start position from the left. *)

Definition isWordCharAt (o : option ascii) : bool :=
  match o with
  | Some c => isWordChar c
  | None => false
  end.

Definition headChar (s : string) : option ascii :=
  match s with
  | EmptyString => None
  | String c _ => Some c
  end.

(** [\b] holds between [prev] and [next] when exactly one of them is a
    word character; beyond either end of the text there is none. *)
Definition atWordBoundary (prev next : option ascii) : bool :=
  xorb (isWordCharAt prev) (isWordCharAt next).

(** Matches the letters of [term] at the front of [s]; on success gives
    the last character read and the rest of [s]. *)
Fixpoint matchLiteral (term s : string) (prev : option ascii)
  : option (option ascii * string) :=
  match term with
  | EmptyString => Some (prev, s)
  | String p term' =>
      match s with
      | EmptyString => None
      | String c s' =>
          if ci_eqb p c then matchLiteral term' s' (Some c) else None
      end
  end.

Definition matchAt (term : string) (prev : option ascii) (s : string) : bool :=
  (atWordBoundary prev (headChar s) &&
   match matchLiteral term s prev with
   | Some (last, rest) => atWordBoundary last (headChar rest)
   | None => false
   end)%bool.

Fixpoint searchFrom (term : string) (prev : option ascii) (s : string) : bool :=
  (matchAt term prev s ||
   match s with
   | EmptyString => false
   | String c s' => searchFrom term (Some c) s'
   end)%bool.

Definition wordBoundaryTest (term text : string) : bool :=
  searchFrom term None text.

(* ------------------------------------------------------------------ *)
(** ** Data model ([types.ts]) *)

Record CalEvent : Type := {
  id : JsField string;
  title : JsField string;
  organizer : JsField string;
  date : JsField string;
  time : JsField string;
  location : JsField string;
  description : JsField string;
  tags : JsField (list string);
  url : JsField string
}.

(** The values of [SearchFilters.dateRange]:
    ['upcoming' | 'today' | 'week' | 'month' | 'weekend']. *)
Inductive DateRange : Type :=
| dr_upcoming
| dr_today
| dr_week
| dr_month
| dr_weekend.

Record SearchFilters : Type := {
  dateRange : DateRange;
  category : string;
  searchQuery : string
}.

(* ------------------------------------------------------------------ *)
(** ** Vocabulary tables *)

(** The object literal [SEARCH_SYNONYMS]; [Object.entries] visits the
    keys in this order. *)
Definition SEARCH_SYNONYMS : list (string * list string) :=
  [ ("ai", ["artificial intelligence"; "machine learning"; "ml"; "deep learning"; "neural network"]);
    ("artificial intelligence", ["ai"; "machine learning"; "ml"; "deep learning"]);
    ("machine learning", ["ml"; "ai"; "artificial intelligence"; "deep learning"]);
    ("ml", ["machine learning"; "ai"; "artificial intelligence"]);
    ("tech", ["technology"; "computer"; "software"; "engineering"; "science & tech"]);
    ("technology", ["tech"; "computer"; "software"; "engineering"]);
    ("music", ["concert"; "performance"; "jazz"; "classical"; "orchestra"; "recital"]);
    ("concert", ["music"; "performance"; "show"; "live"]);
    ("sports", ["athletics"; "game"; "match"; "basketball"; "football"; "volleyball"]);
    ("basketball", ["sports"; "game"; "hoops"; "cal bears"]);
    ("football", ["sports"; "game"; "cal bears"]);
    ("lecture", ["talk"; "presentation"; "seminar"; "speaker"; "academic"]);
    ("talk", ["lecture"; "presentation"; "seminar"; "speaker"]);
    ("workshop", ["class"; "training"; "hands-on"; "session"]);
    ("art", ["arts"; "exhibition"; "gallery"; "museum"; "visual"]);
    ("arts", ["art"; "exhibition"; "gallery"; "performance"; "theater"; "theatre"]);
    ("theater", ["theatre"; "play"; "drama"; "performance"; "arts"]);
    ("theatre", ["theater"; "play"; "drama"; "performance"; "arts"]);
    ("film", ["movie"; "cinema"; "screening"]);
    ("movie", ["film"; "cinema"; "screening"]);
    ("health", ["wellness"; "medical"; "healthcare"; "public health"]);
    ("wellness", ["health"; "mental health"; "self-care"]);
    ("career", ["job"; "employment"; "professional"; "networking"; "recruiting"]);
    ("job", ["career"; "employment"; "hiring"; "internship"]);
    ("diversity", ["dei"; "inclusion"; "equity"; "multicultural"]);
    ("dei", ["diversity"; "equity"; "inclusion"]) ].

Definition WHOLE_WORD_ONLY : list string :=
  ["ai"; "ml"; "ar"; "vr"; "it"; "cs"].

Definition BERKELEY_LOCATIONS : list string :=
  [ "berkeley"; "uc berkeley"; "cal "; "memorial stadium"; "haas pavilion";
    "edwards stadium"; "evans diamond"; "hearst"; "recreational sports facility";
    "rsf"; "zellerbach"; "wheeler"; "dwinelle"; "soda hall"; "cory hall";
    "doe library"; "moffitt"; "bancroft"; "sproul"; "mlk student union";
    "california memorial"; "greek theatre"; "hearst greek" ].

(* ------------------------------------------------------------------ *)
(** ** Property lookup on an object literal: [obj[key]]

    [SEARCH_SYNONYMS] is an ordinary object literal, so a read that
    finds no own property goes on to [Object.prototype].  What is found
    there is a function or, under [__proto__], the prototype object
    itself: a value that is truthy in an [if] and that has no iterator,
    so that spreading it ([push(...v)]) throws a TypeError. *)

Definition OBJECT_PROTOTYPE_KEYS : list string :=
  [ "constructor"; "__defineGetter__"; "__defineSetter__"; "hasOwnProperty";
    "__lookupGetter__"; "__lookupSetter__"; "isPrototypeOf";
    "propertyIsEnumerable"; "toString"; "valueOf"; "__proto__";
    "toLocaleString" ].

Inductive PropertyValue : Type :=
| OwnArray (syns : list string)   (* an array of the literal *)
| Inherited                       (* a function, or Object.prototype itself *)
| NoProperty.                     (* undefined *)

Fixpoint ownProperty (obj : list (string * list string)) (key : string)
  : option (list string) :=
  match obj with
  | [] => None
  | (k, v) :: rest => if String.eqb k key then Some v else ownProperty rest key
  end.

Definition getProperty (obj : list (string * list string)) (key : string)
  : PropertyValue :=
  match ownProperty obj key with
  | Some v => OwnArray v
  | None => if arrayIncludes OBJECT_PROTOTYPE_KEYS key then Inherited else NoProperty
  end.

(* ------------------------------------------------------------------ *)
(** ** [expandSearchQuery] *)

(** The test of the [forEach] callback. *)
Definition keyFires (queryWords : list string) (normalized key : string) : bool :=
  (arrayIncludes queryWords key || String.eqb key normalized)%bool.

(** [Object.entries(SEARCH_SYNONYMS).forEach(...)], pushing onto [terms]. *)
Definition pushMatching (queryWords : list string) (normalized : string)
  (entries : list (string * list string)) (terms : list string) : list string :=
  fold_left
    (fun acc entry =>
       if keyFires queryWords normalized (fst entry) then acc ++ snd entry else acc)
    entries terms.

(** [if (SEARCH_SYNONYMS[normalized])
      terms.push(...SEARCH_SYNONYMS[normalized])] is the first step; the
    [forEach] over the entries is the second; [[...new Set(terms)]] the
    last. *)
Definition expandSearchQuery (query : string) : Completion (list string) :=
  let normalized := trim (toLowerCase query) in
  let terms := [normalized] in
  terms <- match getProperty SEARCH_SYNONYMS normalized with
           | OwnArray syns => Normal (terms ++ syns)
           | Inherited => Throw TypeError   (* truthy, but not iterable *)
           | NoProperty => Normal terms
           end ;;
  let queryWords := splitWhitespace normalized in
  let terms := pushMatching queryWords normalized SEARCH_SYNONYMS terms in
  Normal (dedup terms).

(* ------------------------------------------------------------------ *)
(** ** [isHomeGame] *)

(** [event.tags?.some(tag => tag.toLowerCase().includes('sport'))],
    [undefined] (falsy) when there are no tags to look at. *)
Definition isSportsEvent (event : CalEvent) : bool :=
  match tags event with
  | Val ts => existsb (fun tag => includes (toLowerCase tag) "sport") ts
  | Undefined | Null => false
  end.

Definition isHomeGame (event : CalEvent) : Completion bool :=
  if negb (isSportsEvent event) then Normal true
  else
    match location event with
    | Val loc =>
        let location := toLowerCase loc in
        Normal (existsb (fun loc => includes location loc) BERKELEY_LOCATIONS)
    | Undefined | Null => Throw TypeError   (* event.location.toLowerCase() *)
    end.

(* ------------------------------------------------------------------ *)
(** ** [eventMatchesSearch] *)

(** An array element that is [undefined] or [null] joins as the empty
    string. *)
Definition joinText (f : JsField string) : string :=
  match f with
  | Val s => s
  | Undefined | Null => EmptyString
  end.

(** [event.tags || []] *)
Definition tagsOrEmpty (event : CalEvent) : list string :=
  match tags event with
  | Val ts => ts
  | Undefined | Null => []
  end.

Definition searchableText (event : CalEvent) : string :=
  toLowerCase
    (join " " ([joinText (title event); joinText (description event);
                joinText (organizer event)] ++ tagsOrEmpty event)).

Definition termMatches (text term : string) : bool :=
  if arrayIncludes WHOLE_WORD_ONLY term
  then wordBoundaryTest term text
  else includes text term.

Definition eventMatchesSearch (event : CalEvent) (searchTerms : list string) : bool :=
  let searchableText := searchableText event in
  existsb (termMatches searchableText) searchTerms.

(* ------------------------------------------------------------------ *)
(** ** [Date]: the calendar of ECMAScript (section "Date Objects")

    Names follow the abstract operations of the language specification.
    [/] and [mod] on [Z] with a positive divisor are [floor] and the
    non-negative remainder.  Time values are not clipped to the range a
    [Date] can hold (8.64e15 ms either side of the epoch). *)

Module JsDate.

Definition msPerDay : Z := 86400000.

Definition Day (t : Z) : Z := t / msPerDay.

Definition TimeWithinDay (t : Z) : Z := t mod msPerDay.

Definition DayFromYear (y : Z) : Z :=
  365 * (y - 1970) + (y - 1969) / 4 - (y - 1901) / 100 + (y - 1601) / 400.

(** 1 in a leap year, 0 otherwise. *)
Definition InLeapYear (y : Z) : Z :=
  if negb (y mod 4 =? 0) then 0
  else if negb (y mod 100 =? 0) then 1
  else if negb (y mod 400 =? 0) then 0
  else 1.

(** The largest [y] with [DayFromYear y <= d].  The estimate from the
    mean year length is off by at most one year. *)
Definition YearFromDay (d : Z) : Z :=
  let y0 := 1970 + (d * 400) / 146097 in
  if DayFromYear (y0 + 1) <=? d then y0 + 1
  else if DayFromYear y0 <=? d then y0
  else y0 - 1.

Definition YearFromTime (t : Z) : Z := YearFromDay (Day t).

Definition DayWithinYear (t : Z) : Z := Day t - DayFromYear (YearFromTime t).

(** Days of the year before month [m] (0 = January); [leap] is 0 or 1. *)
Definition monthStart (leap m : Z) : Z :=
  match m with
  | 0 => 0
  | 1 => 31
  | 2 => 59 + leap
  | 3 => 90 + leap
  | 4 => 120 + leap
  | 5 => 151 + leap
  | 6 => 181 + leap
  | 7 => 212 + leap
  | 8 => 243 + leap
  | 9 => 273 + leap
  | 10 => 304 + leap
  | 11 => 334 + leap
  | _ => 365 + leap
  end.

Definition monthOfDay (leap dwy : Z) : Z :=
  if dwy <? monthStart leap 1 then 0
  else if dwy <? monthStart leap 2 then 1
  else if dwy <? monthStart leap 3 then 2
  else if dwy <? monthStart leap 4 then 3
  else if dwy <? monthStart leap 5 then 4
  else if dwy <? monthStart leap 6 then 5
  else if dwy <? monthStart leap 7 then 6
  else if dwy <? monthStart leap 8 then 7
  else if dwy <? monthStart leap 9 then 8
  else if dwy <? monthStart leap 10 then 9
  else if dwy <? monthStart leap 11 then 10
  else 11.

Definition MonthFromTime (t : Z) : Z :=
  monthOfDay (InLeapYear (YearFromTime t)) (DayWithinYear t).

Definition DateFromTime (t : Z) : Z :=
  let leap := InLeapYear (YearFromTime t) in
  DayWithinYear t - monthStart leap (monthOfDay leap (DayWithinYear t)) + 1.

(** 0 = Sunday; the epoch was a Thursday. *)
Definition WeekDay (t : Z) : Z := (Day t + 4) mod 7.

Definition MakeDay (year month date : Z) : Z :=
  let ym := year + month / 12 in
  let mn := month mod 12 in
  DayFromYear ym + monthStart (InLeapYear ym) mn + date - 1.

Definition MakeDate (day time : Z) : Z := day * msPerDay + time.

Definition DaysInMonth (year month : Z) : Z :=
  monthStart (InLeapYear year) (month + 1) - monthStart (InLeapYear year) month.

End JsDate.
Import JsDate.

(** The host environment. *)
Record Host : Type := {
  LocalTZA : Z;                          (* local time minus UTC, in ms *)
  parseOther : string -> option Z        (* Date.parse off the date-only form *)
}.

Definition LocalTime (h : Host) (t : Z) : Z := t + LocalTZA h.

Definition UTC (h : Host) (t : Z) : Z := t - LocalTZA h.

(** *** [Date.parse] *)

Definition digitVal (c : ascii) : Z := Z.of_N (code c) - 48.

(** The date-only form [YYYY-MM-DD] of the date-time string format.  A
    string of this form names midnight UTC of that day.  A string of
    another shape, or with a month or day that does not exist, is left
    to the host. *)
Definition parseDateOnly (s : string) : option Z :=
  match s with
  | String y1 (String y2 (String y3 (String y4 (String sep1
      (String m1 (String m2 (String sep2 (String d1 (String d2 EmptyString))))))))) =>
      if (forallb isDigit [y1; y2; y3; y4; m1; m2; d1; d2]
          && Ascii.eqb sep1 "-" && Ascii.eqb sep2 "-")%bool
      then
        let year := 1000 * digitVal y1 + 100 * digitVal y2 + 10 * digitVal y3 + digitVal y4 in
        let month := 10 * digitVal m1 + digitVal m2 in
        let day := 10 * digitVal d1 + digitVal d2 in
        if ((1 <=? month) && (month <=? 12) && (1 <=? day)
            && (day <=? DaysInMonth year (month - 1)))%bool
        then Some (MakeDate (MakeDay year (month - 1) day) 0)
        else None
      else None
  | _ => None
  end.

Definition Date_parse (h : Host) (s : string) : option Z :=
  match parseDateOnly s with
  | Some t => Some t
  | None => parseOther h s
  end.

(** [new Date(event.date)]: a string is parsed, [undefined] converts to
    NaN and [null] to 0. *)
Definition newDate (h : Host) (v : JsField string) : option Z :=
  match v with
  | Val s => Date_parse h s
  | Undefined => None
  | Null => Some 0
  end.

(** *** [Date.prototype.toDateString] *)

Definition WEEKDAY_NAMES : list string :=
  ["Sun"; "Mon"; "Tue"; "Wed"; "Thu"; "Fri"; "Sat"].

Definition MONTH_NAMES : list string :=
  ["Jan"; "Feb"; "Mar"; "Apr"; "May"; "Jun";
   "Jul"; "Aug"; "Sep"; "Oct"; "Nov"; "Dec"].

Definition digitChar (d : Z) : ascii := ascii_of_N (Z.to_N d + 48).

(** Puts the last [width] decimal digits of [n] in front of [acc] and
    returns them with what is left of [n]. *)
Fixpoint lowDigits (width : nat) (n : Z) (acc : string) : Z * string :=
  match width with
  | O => (n, acc)
  | S w => lowDigits w (n / 10) (String (digitChar (n mod 10)) acc)
  end.

(** Puts the remaining digits of [n], if any, in front of [acc]. *)
Fixpoint highDigits (fuel : nat) (n : Z) (acc : string) : string :=
  match fuel with
  | O => acc
  | S f => if n =? 0 then acc
           else highDigits f (n / 10) (String (digitChar (n mod 10)) acc)
  end.

(** ToZeroPaddedDecimalString(n, minLength) for [0 <= n]. *)
Definition toZeroPadded (n : Z) (minLength : nat) : string :=
  let (rest, low) := lowDigits minLength n EmptyString in
  highDigits (Z.to_nat rest) rest low.

(** DateString(tv) for a local time value. *)
Definition DateString (t : Z) : string :=
  let weekday := nth (Z.to_nat (WeekDay t)) WEEKDAY_NAMES EmptyString in
  let month := nth (Z.to_nat (MonthFromTime t)) MONTH_NAMES EmptyString in
  let day := toZeroPadded (DateFromTime t) 2 in
  let yv := YearFromTime t in
  let yearSign := if 0 <=? yv then EmptyString else "-" in
  weekday ++ " " ++ month ++ " " ++ day ++ " " ++ yearSign ++ toZeroPadded (Z.abs yv) 4.

Definition toDateString (h : Host) (d : option Z) : string :=
  match d with
  | None => "Invalid Date"
  | Some tv => DateString (LocalTime h tv)
  end.

(** *** Setters and getters used by the filter *)

(** [d.setHours(0,0,0,0)] *)
Definition setHoursZero (h : Host) (tv : Z) : Z :=
  UTC h (MakeDate (Day (LocalTime h tv)) 0).

(** [d.getDate()] *)
Definition getDate (h : Host) (tv : Z) : Z := DateFromTime (LocalTime h tv).

(** [d.setDate(dt)], on a host whose offset does not change;
    [zonedSetDate] below is the setter where it does. *)
Definition setDate (h : Host) (tv dt : Z) : Z :=
  let t := LocalTime h tv in
  UTC h (MakeDate (MakeDay (YearFromTime t) (MonthFromTime t) dt) (TimeWithinDay t)).

(** [a >= b] and [a <= b] on dates compare the time values; a comparison
    with NaN is false. *)
Definition dateGe (a b : option Z) : bool :=
  match a, b with
  | Some x, Some y => y <=? x
  | _, _ => false
  end.

Definition dateLe (a b : option Z) : bool :=
  match a, b with
  | Some x, Some y => x <=? y
  | _, _ => false
  end.

(* ------------------------------------------------------------------ *)
(** ** The [filteredEvents] callback *)

(** [filters.category === 'All' || event.tags?.some(...) ||
    event.tags?.includes(filters.category)], read as a truth value. *)
Definition matchesCategory (filters : SearchFilters) (event : CalEvent) : bool :=
  (String.eqb (category filters) "All" ||
   match tags event with
   | Val ts =>
       existsb (fun t => includes (toLowerCase t) (toLowerCase (category filters))) ts
       || arrayIncludes ts (category filters)
   | Undefined | Null => false
   end)%bool.

(** The date filter: [eventDate = new Date(event.date)],
    [today = new Date(); today.setHours(0,0,0,0)];
    'today' compares [toDateString()] of the two, 'week' tests
    [eventDate >= today && eventDate <= nextWeek] with
    [nextWeek = new Date(); nextWeek.setDate(today.getDate() + 7)];
    no other value of [dateRange] is looked at. *)
Definition matchesDate (h : Host) (now : Z) (filters : SearchFilters)
  (event : CalEvent) : bool :=
  let eventDate := newDate h (date event) in
  let today := setHoursZero h now in
  match dateRange filters with
  | dr_today =>
      String.eqb (toDateString h eventDate) (toDateString h (Some today))
  | dr_week =>
      let nextWeek := setDate h now (getDate h today + 7) in
      (dateGe eventDate (Some today) && dateLe eventDate (Some nextWeek))%bool
  | _ => true
  end.

(** The search filter: skipped when the trimmed query is the empty
    string (falsy). *)
Definition matchesSearch (filters : SearchFilters) (event : CalEvent)
  : Completion bool :=
  let searchQuery := trim (searchQuery filters) in
  if String.eqb searchQuery EmptyString then Normal true
  else
    expandedTerms <- expandSearchQuery searchQuery ;;
    Normal (eventMatchesSearch event expandedTerms).

(** The callback given to [allEvents.filter]: the four verdicts are
    computed in this order, then conjoined. *)
Definition keepEvent (h : Host) (now : Z) (filters : SearchFilters)
  (event : CalEvent) : Completion bool :=
  let matchesCategory := matchesCategory filters event in
  let matchesDate := matchesDate h now filters event in
  matchesSearch <- matchesSearch filters event ;;
  isLocalEvent <- isHomeGame event ;;
  Normal (matchesCategory && matchesDate && matchesSearch && isLocalEvent)%bool.

(** [Array.prototype.filter] with a callback that may throw. *)
Fixpoint arrayFilter {A : Type} (f : A -> Completion bool) (l : list A)
  : Completion (list A) :=
  match l with
  | [] => Normal []
  | x :: rest =>
      keep <- f x ;;
      kept <- arrayFilter f rest ;;
      Normal (if keep then x :: kept else kept)
  end.

Definition filteredEvents (h : Host) (now : Z) (filters : SearchFilters)
  (allEvents : list CalEvent) : Completion (list CalEvent) :=
  arrayFilter (keepEvent h now filters) allEvents.

(** *** Hosts that change their offset (daylight saving)

    [LocalTZA(t, isUTC)] of the language specification, as two
    functions: [offsetAtUTC z t] is the offset in force at the instant
    [t], and [offsetAtLocal z t] is the offset by which the local time
    value [t] is read back as an instant.  The setters, the getter and
    the date filter below are those written for [Host], with the offset
    looked up where the specification looks it up; the host [h] is asked
    for its parser only. *)










(* ------------------------------------------------------------------ *)
(** ** Fixtures: hosts, instants and events used in the examples *)

(** A host on Pacific Daylight Time (UTC-7), on UTC, and on India
    Standard Time (UTC+5:30); none accepts a date string off the
    date-only form. *)
Definition hostPDT : Host :=
  {| LocalTZA := -7 * 3600000; parseOther := fun _ => None |}.

Definition hostUTC : Host :=
  {| LocalTZA := 0; parseOther := fun _ => None |}.

Definition hostIST : Host :=
  {| LocalTZA := 19800000; parseOther := fun _ => None |}.

(** A parser that is lenient the way the one of V8 is: in a string of
    the date-only shape it takes a day up to 31 in every month and
    counts the days past the end of the month into the next month. *)
Definition parseLenient (s : string) : option Z :=
  match s with
  | String y1 (String y2 (String y3 (String y4 (String sep1
      (String m1 (String m2 (String sep2 (String d1 (String d2 EmptyString))))))))) =>
      if (forallb isDigit [y1; y2; y3; y4; m1; m2; d1; d2]
          && Ascii.eqb sep1 "-" && Ascii.eqb sep2 "-")%bool
      then
        let year := 1000 * digitVal y1 + 100 * digitVal y2 + 10 * digitVal y3 + digitVal y4 in
        let month := 10 * digitVal m1 + digitVal m2 in
        let day := 10 * digitVal d1 + digitVal d2 in
        if ((1 <=? month) && (month <=? 12) && (1 <=? day) && (day <=? 31))%bool
        then Some (MakeDate (MakeDay year (month - 1) day) 0)
        else None
      else None
  | _ => None
  end.

(** A host on Pacific Standard Time (UTC-8) with that parser. *)
Definition hostLenient : Host :=
  {| LocalTZA := -8 * 3600000; parseOther := parseLenient |}.


(** The instant at which the clock of host [h] shows the given local
    date and time of day. *)
Definition localInstant (h : Host) (year month day hour minute : Z) : Z :=
  UTC h (MakeDate (MakeDay year (month - 1) day) (hour * 3600000 + minute * 60000)).

Definition mkFilters (range : DateRange) (cat query : string) : SearchFilters :=
  {| dateRange := range; category := cat; searchQuery := query |}.

(** An event that has every field of [CalEvent]. *)
Definition mkEvent (ttl desc org day loc : string) (tgs : list string) : CalEvent :=
  {| id := Val "evt-1"; title := Val ttl; organizer := Val org; date := Val day;
     time := Val "7:00 PM"; location := Val loc; description := Val desc;
     tags := Val tgs; url := Val "https://events.berkeley.edu/" |}.

Definition eventDated (day : string) : CalEvent :=
  mkEvent "Open House" "Campus open house" "Visitor Services" day "Sproul Plaza" ["Student Life"].

Definition deepLearningEvent : CalEvent :=
  mkEvent "Weekly Seminar" "deep learning models" "EECS" "2024-06-11" "Soda Hall" ["Academic"].

(** A sports event whose snapshot entry has [location: null]. *)
Definition sportsNoLocation : CalEvent :=
  {| id := Val "evt-2"; title := Val "Cal vs. Stanford"; organizer := Val "Cal Athletics";
     date := Val "2024-06-11"; time := Val "7:00 PM"; location := Null;
     description := Val "Conference game"; tags := Val ["Sports"];
     url := Val "https://calbears.com/" |}.

(** The same event with the key [tags] missing instead. *)
Definition noTagsNoLocation : CalEvent :=
  {| id := Val "evt-3"; title := Undefined; organizer := Val "Cal Athletics";
     date := Val "2024-06-11"; time := Val "7:00 PM"; location := Null;
     description := Val "Conference game"; tags := Undefined;
     url := Val "https://calbears.com/" |}.

(* ------------------------------------------------------------------ *)
(** ** Vocabulary of the statements *)

(** Every character of [s] satisfies [P]. *)
Fixpoint allChars (P : ascii -> bool) (s : string) : bool :=
  match s with
  | EmptyString => true
  | String c s' => (P c && allChars P s')%bool
  end.

Definition notAsciiUpper (c : ascii) : bool := negb (isAsciiUpper c).

(** The last character of a string, if it has one. *)
Fixpoint lastChar (s : string) : option ascii :=
  match s with
  | EmptyString => None
  | String c EmptyString => Some c
  | String _ s' => lastChar s'
  end.

(** [sub] occurs in [text]. *)
Definition occursIn (sub text : string) : Prop :=
  exists pre post, text = (pre ++ sub ++ post)%string.



(** The key [key] of the vocabulary is triggered by the normalized
    query: it is the whole query or one of its words. *)
Definition triggers (normalized key : string) : Prop :=
  key = normalized \/ In key (splitWhitespace normalized).

Definition notWhiteSpace (c : ascii) : bool := negb (isWhiteSpace c).

(** White space, or an edge of the text. *)
Definition whiteOrEdge (o : option ascii) : bool :=
  match o with
  | Some c => isWhiteSpace c
  | None => true
  end.

(** [w] is one of the whitespace-delimited words of [s]: a stretch of
    [s] that is not empty, holds no white space, and has white space or
    an edge of [s] on either side.  Said without [split]. *)
Definition isWordOf (w s : string) : Prop :=
  w <> EmptyString /\
  allChars notWhiteSpace w = true /\
  exists pre post,
    s = (pre ++ w ++ post)%string /\
    whiteOrEdge (lastChar pre) = true /\
    whiteOrEdge (headChar post) = true.

(** The vocabulary key [key] equals the whole normalized query or one
    of its whitespace-delimited words. *)
Definition firedBy (normalized key : string) : Prop :=
  key = normalized \/ isWordOf key normalized.





(** The event carries a tag in which "sport" occurs, whatever the case
    of its letters. *)
Definition sportsTagged (event : CalEvent) : Prop :=
  exists ts tag, tags event = Val ts /\ In tag ts /\ occursIn "sport" (toLowerCase tag).

(** The lower-cased location of the event contains an entry of the
    allowlist. *)
Definition atBerkeley (event : CalEvent) : Prop :=
  exists loc place,
    location event = Val loc /\ In place BERKELEY_LOCATIONS /\
    occursIn place (toLowerCase loc).

(** The verdicts of the two predicates that can throw, read as [false]
    where they throw. *)
Definition searchPasses (filters : SearchFilters) (event : CalEvent) : bool :=
  match matchesSearch filters event with
  | Normal b => b
  | Throw _ => false
  end.

Definition localPasses (event : CalEvent) : bool :=
  match isHomeGame event with
  | Normal b => b
  | Throw _ => false
  end.

(** An entry whose date the ingestion job could not pin down. *)
Definition undatedEvent : CalEvent :=
  mkEvent "Poetry Reading" "Open mic" "English Department" "TBA" "Wheeler Hall" ["Arts"].

(** An entry without the key [date]. *)
Definition noDateEvent : CalEvent :=
  {| id := Val "evt-4"; title := Val "Open Studio"; organizer := Val "Art Practice";
     date := Undefined; time := Val "All day"; location := Val "Wurster Hall";
     description := Val "Drop in"; tags := Val ["Arts"];
     url := Val "https://art.berkeley.edu/" |}.

Definition aiEthicsTalk : CalEvent :=
  mkEvent "AI Ethics Talk" "Panel discussion" "CITRIS" "2024-06-11"
          "Sutardja Dai Hall" ["Academic"].

Definition awayGame : CalEvent :=
  mkEvent "Cal vs. Stanford" "Conference game" "Cal Athletics" "2024-06-11"
          "Stanford, CA" ["Sports"].

Definition homeGame : CalEvent :=
  mkEvent "Cal vs. Stanford" "Conference game" "Cal Athletics" "2024-06-11"
          "Haas Pavilion, Berkeley, CA" ["Sports"].

Definition trainingEvent : CalEvent :=
  mkEvent "Training Session" "Train against the clock" "Rec Sports" "2024-06-11"
          "Recreational Sports Facility" ["Student Life"].

(** The window that the 'week' branch ends up testing: from local
    midnight of the current day to seven days after the current instant,
    both ends included, on the time value of the event. *)
Definition onWeekRange (h : Host) (now : Z) (d : option Z) : bool :=
  match d with
  | Some tv => ((Day (LocalTime h now) * msPerDay - LocalTZA h <=? tv)
                && (tv <=? now + 7 * msPerDay))%bool
  | None => false
  end.

(** Local time is behind UTC, by less than a day. *)
Definition westOfUTC (h : Host) : Prop := - msPerDay < LocalTZA h < 0.

Ltac month_cases m :=
  let Hc := fresh "Hc" in
  assert (Hc : m = 0 \/ m = 1 \/ m = 2 \/ m = 3 \/ m = 4 \/ m = 5 \/ m = 6 \/
               m = 7 \/ m = 8 \/ m = 9 \/ m = 10 \/ m = 11) by lia;
  repeat (destruct Hc as [Hc | Hc]); subst m.


(* ------------------------------------------------------------------ *)
(** ** Loading the snapshot ([services/geminiService.ts])

    [fetchEventsFromGemini] fetches [/events.json], and maps the events
    of the parsed document before they reach the filter:
    [(data.events || []).map(event => isSportsEvent ? { ...event, url:
    CALBEARS_TICKETS_URL } : event)].  The network and [JSON.parse] are
    outside the model; the mapping is modelled on the parsed events. *)

Definition CALBEARS_TICKETS_URL : string :=
  "https://calbears.com/sports/2021/2/23/cal-golden-bears-tickets.aspx".

(** The callback of [event.tags?.some(...)] in the service. *)
Definition tagNamesSports (tag : string) : bool :=
  (includes (toLowerCase tag) "sport"
   || includes (toLowerCase tag) "athletics"
   || includes (toLowerCase tag) "cal bears")%bool.

(** The [isSportsEvent] of the service (the filter has its own). *)
Definition serviceIsSportsEvent (event : CalEvent) : bool :=
  match tags event with
  | Val ts => existsb tagNamesSports ts
  | Undefined | Null => false
  end.

(** [{ ...event, url: u }] *)
Definition withUrl (event : CalEvent) (u : string) : CalEvent :=
  {| id := id event; title := title event; organizer := organizer event;
     date := date event; time := time event; location := location event;
     description := description event; tags := tags event; url := Val u |}.

Definition fixSportsUrl (event : CalEvent) : CalEvent :=
  if serviceIsSportsEvent event then withUrl event CALBEARS_TICKETS_URL else event.

(** [x || []] for an array read from the document. *)
Definition orEmptyArray {A : Type} (f : JsField (list A)) : list A :=
  match f with
  | Val l => l
  | Undefined | Null => []
  end.

(** The [events] of the value that [fetchEventsFromGemini] resolves to. *)
Definition loadedEvents (dataEvents : JsField (list CalEvent)) : list CalEvent :=
  map fixSportsUrl (orEmptyArray dataEvents).

(** [Array.prototype.map] over the result of a pass that may have
    thrown. *)
Definition mapCompletion {A B : Type} (f : A -> B) (c : Completion A) : Completion B :=
  match c with
  | Normal a => Normal (f a)
  | Throw err => Throw err
  end.

(* ------------------------------------------------------------------ *)
(** ** The ingestion script ([updateEvents]) *)

Module Grounding.

Record GroundingSource : Type := {
  title : string;
  uri : string
}.

End Grounding.

(** A [Map] with string keys: the entries in insertion order.  [set] on
    a key that is present replaces the value where the key stands. *)
Fixpoint mapSet {V : Type} (m : list (string * V)) (k : string) (v : V)
  : list (string * V) :=
  match m with
  | [] => [(k, v)]
  | (k', v') :: rest =>
      if String.eqb k' k then (k', v) :: rest else (k', v') :: mapSet rest k v
  end.

Fixpoint mapGet {V : Type} (m : list (string * V)) (k : string) : option V :=
  match m with
  | [] => None
  | (k', v') :: rest => if String.eqb k' k then Some v' else mapGet rest k
  end.

Definition mapHas {V : Type} (m : list (string * V)) (k : string) : bool :=
  match mapGet m k with
  | Some _ => true
  | None => false
  end.

(** [new Map(entries)] *)
Definition newMap {V : Type} (entries : list (string * V)) : list (string * V) :=
  fold_left (fun m entry => mapSet m (fst entry) (snd entry)) entries [].

(** [Array.from(m.values())] *)
Definition mapValues {V : Type} (m : list (string * V)) : list V := map snd m.

(** [Array.from(new Map(sources.map(s => [s.uri, s])).values())] *)
Definition uniqueSources (sources : list Grounding.GroundingSource)
  : list Grounding.GroundingSource :=
  mapValues (newMap (map (fun s => (Grounding.uri s, s)) sources)).

(** The last source of a list that has the given uri. *)
Definition lastWithUri (u : string) (sources : list Grounding.GroundingSource)
  : option Grounding.GroundingSource :=
  find (fun s => String.eqb (Grounding.uri s) u) (rev sources).

(** [String(v)] for a string field that may be absent. *)
Definition toStringField (f : JsField string) : string :=
  match f with
  | Val s => s
  | Undefined => "undefined"
  | Null => "null"
  end.

(** [/^\d{4}-\d{2}-\d{2}$/.test(s)]: without the [m] flag the anchors
    are the two ends of [s], and [\d] is [0-9]. *)
Definition isoDateRegexTest (s : string) : bool :=
  match s with
  | String y1 (String y2 (String y3 (String y4 (String sep1
      (String m1 (String m2 (String sep2 (String d1 (String d2 EmptyString))))))))) =>
      (forallb isDigit [y1; y2; y3; y4] && Ascii.eqb sep1 "-"
       && forallb isDigit [m1; m2] && Ascii.eqb sep2 "-"
       && forallb isDigit [d1; d2])%bool
  | _ => false
  end.

(** [events.filter(event => isoDateRegex.test(event.date))]; [test]
    converts its argument to a string. *)
Definition validEvents (events : list CalEvent) : list CalEvent :=
  filter (fun event => isoDateRegexTest (toStringField (date event))) events.

(** Four digits, a dash, two digits, a dash, two digits. *)
Definition isoDateShape (s : string) : Prop :=
  exists y1 y2 y3 y4 m1 m2 d1 d2,
    s = String y1 (String y2 (String y3 (String y4 (String "-"
          (String m1 (String m2 (String "-" (String d1 (String d2 EmptyString))))))))) /\
    forallb isDigit [y1; y2; y3; y4; m1; m2; d1; d2] = true.


(** *** Finding the array in the model's answer

    [text.indexOf('[')], [text.lastIndexOf(']')] and
    [text.substring(firstBracket, lastBracket + 1)]; [None] stands for
    the index -1. *)

Fixpoint indexOfChar (c : ascii) (s : string) : option nat :=
  match s with
  | EmptyString => None
  | String d r => if Ascii.eqb d c then Some 0%nat else option_map S (indexOfChar c r)
  end.

Fixpoint lastIndexOfChar (c : ascii) (s : string) : option nat :=
  match s with
  | EmptyString => None
  | String d r =>
      match lastIndexOfChar c r with
      | Some j => Some (S j)
      | None => if Ascii.eqb d c then Some 0%nat else None
      end
  end.

(** [s.substring(start, end)] for indices that are not negative: the
    two are swapped when [start] is the greater, and an index past the
    end counts as the end. *)
Definition jsSubstring (s : string) (start finish : nat) : string :=
  substring (Nat.min start finish) (Nat.max start finish - Nat.min start finish) s.

(** The text given to [JSON.parse], if any is. *)
Definition extractArrayText (text : string) : option string :=
  match indexOfChar "[" text, lastIndexOfChar "]" text with
  | Some firstBracket, Some lastBracket =>
      Some (jsSubstring text firstBracket (lastBracket + 1))
  | _, _ => None
  end.

(** [c] does not occur in [s]. *)
Definition lacksChar (c : ascii) (s : string) : Prop :=
  allChars (fun d => negb (Ascii.eqb d c)) s = true.


(** *** Link verification ([verifyEventUrls], [buildFallbackMap])

    [new URL(u).hostname] is the host's: a [UrlParser] gives the host
    name of a string, or [None] where the constructor throws.  The
    outcome of [checkUrl] is the network's; each completed check brings
    its own. *)

Definition UrlParser : Type := string -> option string.

Definition DEFAULT_FALLBACK : string := "https://events.berkeley.edu/".

Definition CONCURRENCY : nat := 10%nat.

(** [for (const url of urls) { try { const host = new URL(url).hostname;
    if (!map.has(host)) map.set(host, url); } catch {} }] *)
Definition buildFallbackMap (hostnameOf : UrlParser) (urls : list string)
  : list (string * string) :=
  fold_left
    (fun m url =>
       match hostnameOf url with
       | Some host => if negb (mapHas m host) then mapSet m host url else m
       | None => m
       end)
    urls [].

(** [let fallback = DEFAULT_FALLBACK; try { const host = new
    URL(event.url).hostname; fallback = fallbackMap.get(host) ||
    DEFAULT_FALLBACK; } catch {}] *)
Definition fallbackFor (hostnameOf : UrlParser) (fallbackMap : list (string * string))
  (event : CalEvent) : string :=
  match hostnameOf (toStringField (url event)) with
  | Some host =>
      match mapGet fallbackMap host with
      | Some u => if String.eqb u EmptyString then DEFAULT_FALLBACK else u
      | None => DEFAULT_FALLBACK
      end
  | None => DEFAULT_FALLBACK
  end.

(** [a[i] = x] on an array with holes; a write past the end extends it. *)
Fixpoint arraySet {A : Type} (a : list (option A)) (i : nat) (x : A) : list (option A) :=
  match i, a with
  | O, [] => [Some x]
  | O, _ :: rest => Some x :: rest
  | S j, [] => None :: arraySet [] j x
  | S j, y :: rest => y :: arraySet rest j x
  end.

Module Pool.

(** The variables that the workers share, and [awaiting]: the indices
    whose check is under way, one for each worker that has not
    returned. *)
Record State : Type := {
  index : nat;
  results : list (option CalEvent);
  verified : nat;
  replaced : nat;
  awaiting : list nat
}.

End Pool.

(** The head of the worker's loop, up to its [await]:
    [const i = index++; if (i >= events.length) return;
     const event = events[i]; ... await checkUrl(event.url)]. *)
Definition takeIndex (n : nat) (s : Pool.State) : Pool.State :=
  let i := Pool.index s in
  {| Pool.index := S i;
     Pool.results := Pool.results s;
     Pool.verified := Pool.verified s;
     Pool.replaced := Pool.replaced s;
     Pool.awaiting := if Nat.leb n i then Pool.awaiting s else Pool.awaiting s ++ [i] |}.

(** [results = new Array(events.length)], then
    [Array.from({ length: Math.min(CONCURRENCY, events.length) },
    () => worker())]: each worker runs to its first [await]. *)
Definition startPool (n : nat) : Pool.State :=
  Nat.iter (Nat.min CONCURRENCY n) (takeIndex n)
    {| Pool.index := 0%nat; Pool.results := repeat None n;
       Pool.verified := 0%nat; Pool.replaced := 0%nat; Pool.awaiting := [] |}.

(** The worker that awaits the check of [events[i]] goes on with its
    outcome [ok]: it stores the event, or the event with the fallback
    link, counts it, and runs the head of the loop again. *)
Definition resumeWorker (hostnameOf : UrlParser) (fallbackMap : list (string * string))
  (events : list CalEvent) (i : nat) (ok : bool) (s : Pool.State) : Pool.State :=
  match nth_error events i with
  | None => s
  | Some event =>
      takeIndex (List.length events)
        {| Pool.index := Pool.index s;
           Pool.results :=
             arraySet (Pool.results s) i
               (if ok then event
                else withUrl event (fallbackFor hostnameOf fallbackMap event));
           Pool.verified := if ok then S (Pool.verified s) else Pool.verified s;
           Pool.replaced := if ok then Pool.replaced s else S (Pool.replaced s);
           Pool.awaiting := remove Nat.eq_dec i (Pool.awaiting s) |}
  end.

(** [poolRun ... k s]: the pool can be in state [s] after [k] checks
    have completed, in whatever order and with whatever outcomes. *)
Inductive poolRun (hostnameOf : UrlParser) (fallbackMap : list (string * string))
  (events : list CalEvent) : nat -> Pool.State -> Prop :=
| run_start : poolRun hostnameOf fallbackMap events 0%nat (startPool (List.length events))
| run_step : forall k s i ok,
    poolRun hostnameOf fallbackMap events k s ->
    In i (Pool.awaiting s) ->
    poolRun hostnameOf fallbackMap events (S k)
            (resumeWorker hostnameOf fallbackMap events i ok s).

(** Every worker has returned: [Promise.all] resolves. *)
Definition settled (s : Pool.State) : Prop := Pool.awaiting s = [].

(** What [verifyEventUrls] may put in the place of [event]. *)
Definition verifiedOrReplaced (hostnameOf : UrlParser) (fallbackMap : list (string * string))
  (event : CalEvent) (r : option CalEvent) : Prop :=
  r = Some event \/ r = Some (withUrl event (fallbackFor hostnameOf fallbackMap event)).

(** [u] has host name [host]. *)
Definition hasHost (hostnameOf : UrlParser) (host u : string) : bool :=
  match hostnameOf u with
  | Some h => String.eqb h host
  | None => false
  end.


(** What holds of the pool however the checks complete. *)
Record PoolInvariant (hostnameOf : UrlParser) (fallbackMap : list (string * string))
  (events : list CalEvent) (k : nat) (s : Pool.State) : Prop := {
  inv_length : List.length (Pool.results s) = List.length events;
  inv_nodup : NoDup (Pool.awaiting s);
  inv_awaiting : forall i, In i (Pool.awaiting s) ->
                           (i < List.length events)%nat /\ (i < Pool.index s)%nat;
  inv_done : forall i event,
      nth_error events i = Some event -> (i < Pool.index s)%nat ->
      ~ In i (Pool.awaiting s) ->
      exists r, nth_error (Pool.results s) i = Some r /\
                verifiedOrReplaced hostnameOf fallbackMap event r;
  inv_count : (Pool.verified s + Pool.replaced s = k)%nat;
  inv_balance : (k + List.length (Pool.awaiting s)
                 = Nat.min (Pool.index s) (List.length events))%nat;
  inv_idle : Pool.awaiting s = [] -> (List.length events <= Pool.index s)%nat
}.

(* ================================================================== *)
(** * Properties *)

(* ------------------------------------------------------------------ *)
(** ** Characters and strings *)

Example trim_ex : trim "  Jazz  Night " = "Jazz  Night".
Proof. reflexivity. Qed.

Example split_ex : splitWhitespace "smart  art" = ["smart"; "art"].
Proof. reflexivity. Qed.

Example split_empty : splitWhitespace "" = [""].
Proof. reflexivity. Qed.

Example split_edges : splitWhitespace " a " = [""; "a"; ""].
Proof. reflexivity. Qed.

Example lower_ex : toLowerCase "AI Ethics Talk" = "ai ethics talk".
Proof. reflexivity. Qed.

Example dedup_ex : dedup ["a"; "b"; "a"; "c"; "b"] = ["a"; "b"; "c"].
Proof. reflexivity. Qed.

Example date_only_parse :
  parseDateOnly "2024-06-10" = Some 1717977600000 /\
  parseDateOnly "2024-02-29" = Some 1709164800000 /\
  parseDateOnly "2023-02-29" = None /\
  parseDateOnly "2024-13-01" = None /\
  parseDateOnly "June 10, 2024" = None /\
  parseDateOnly "1970-01-01" = Some 0.
Proof. repeat split. Qed.

Example date_strings :
  toDateString hostUTC (Some 0) = "Thu Jan 01 1970" /\
  toDateString hostPDT (Some 0) = "Wed Dec 31 1969" /\
  toDateString hostUTC (Some 1717977600000) = "Mon Jun 10 2024" /\
  toDateString hostUTC (parseDateOnly "0099-03-01") = "Sun Mar 01 0099" /\
  toDateString hostUTC None = "Invalid Date".
Proof. repeat split. Qed.

Lemma toLowerChar_not_upper : forall c, isAsciiUpper (toLowerChar c) = false.
Proof.
  intros [[] [] [] [] [] [] [] []]; vm_compute; reflexivity.
Qed.

Lemma prefix_app : forall a b,
  String.prefix a b = true <-> exists post, b = (a ++ post)%string.
Proof.
  induction a as [|c a IH]; intros b.
  - split; [intros _; exists b; reflexivity | destruct b; reflexivity].
  - destruct b as [|d b]; simpl.
    + split; [discriminate | intros [post H]; discriminate].
    + destruct (ascii_dec c d) as [->|Hne].
      * rewrite IH. split; intros [post H]; exists post.
        -- now rewrite H.
        -- now inversion H.
      * split; [discriminate | intros [post H]; inversion H; congruence].
Qed.

(** [includes] is substring containment. *)
Lemma includes_app : forall s sub,
  includes s sub = true <-> exists pre post, s = (pre ++ sub ++ post)%string.
Proof.
  induction s as [|c s IH]; intros sub.
  - cbn [includes]. rewrite orb_false_r, prefix_app. split.
    + intros [post H]. exists EmptyString, post. exact H.
    + intros [pre [post H]]. destruct pre; [exists post; exact H | discriminate].
  - cbn [includes]. rewrite orb_true_iff, prefix_app, IH. split.
    + intros [[post H] | [pre [post H]]].
      * exists EmptyString, post. exact H.
      * exists (String c pre), post. simpl. now rewrite H.
    + intros [pre [post H]]. destruct pre as [|d pre].
      * left. exists post. exact H.
      * right. exists pre, post. now inversion H.
Qed.

Lemma arrayIncludes_In : forall l x, arrayIncludes l x = true <-> In x l.
Proof.
  intros l x. unfold arrayIncludes. rewrite existsb_exists. split.
  - intros [y [Hin Heq]]. apply String.eqb_eq in Heq. now subst.
  - intros Hin. exists x. split; [exact Hin | apply String.eqb_refl].
Qed.

(** *** [dedup] keeps every member once *)

Lemma dedup_In : forall l x, In x (dedup l) <-> In x l.
Proof.
  induction l as [|y l IH]; intros x; simpl; [tauto|].
  rewrite filter_In, IH. split.
  - intros [H | [H _]]; auto.
  - intros [H | H]; [now left|].
    destruct (String.eqb y x) eqn:E.
    + left. now apply String.eqb_eq.
    + right. now split.
Qed.

Lemma NoDup_filter : forall (f : string -> bool) l, NoDup l -> NoDup (filter f l).
Proof.
  intros f l H. induction H as [|x l Hnin Hnd IH]; simpl; [constructor|].
  destruct (f x); [|exact IH].
  constructor; [|exact IH]. rewrite filter_In. tauto.
Qed.

Lemma dedup_NoDup : forall l, NoDup (dedup l).
Proof.
  induction l as [|y l IH]; simpl; constructor.
  - rewrite filter_In. intros [_ H]. now rewrite String.eqb_refl in H.
  - now apply NoDup_filter.
Qed.

(** *** [arrayFilter] without a throw is [filter] *)

Lemma arrayFilter_filter : forall (A : Type) (f : A -> Completion bool) (g : A -> bool) l,
  (forall x, In x l -> f x = Normal (g x)) ->
  arrayFilter f l = Normal (filter g l).
Proof.
  intros A f g. induction l as [|x l IH]; intros H; simpl; [reflexivity|].
  rewrite (H x (or_introl eq_refl)). simpl.
  rewrite IH by (intros y Hy; apply H; now right).
  reflexivity.
Qed.

Lemma arrayFilter_throw : forall (A : Type) (f : A -> Completion bool) l x err,
  In x l -> f x = Throw err -> exists err', arrayFilter f l = Throw err'.
Proof.
  intros A f. induction l as [|y l IH]; intros x err Hin Hx; [contradiction|].
  simpl. destruct Hin as [->|Hin].
  - rewrite Hx. now exists err.
  - destruct (f y) as [b|e]; simpl; [|now exists e].
    destruct (IH x err Hin Hx) as [e' He']. rewrite He'. now exists e'.
Qed.

Lemma arrayFilter_drop : forall (A : Type) (f : A -> Completion bool) before x after,
  f x = Normal false ->
  arrayFilter f (before ++ x :: after) = arrayFilter f (before ++ after).
Proof.
  intros A f. induction before as [|y l IH]; intros x after Hx; simpl.
  - rewrite Hx. simpl. now destruct (arrayFilter f after).
  - now rewrite (IH x after Hx).
Qed.

(* ------------------------------------------------------------------ *)
(** ** Synonym expansion *)

Lemma allChars_toLowerCase : forall s, allChars notAsciiUpper (toLowerCase s) = true.
Proof.
  unfold toLowerCase. induction s as [|c s IH]; simpl; [reflexivity|].
  unfold notAsciiUpper at 1. now rewrite toLowerChar_not_upper, IH.
Qed.

Lemma allChars_trimStart : forall P s, allChars P s = true -> allChars P (trimStart s) = true.
Proof.
  intros P. induction s as [|c s IH]; simpl; [reflexivity|].
  intros H. apply andb_true_iff in H as [Hc Hs].
  destruct (isWhiteSpace c); [now apply IH|]. simpl. now rewrite Hc, Hs.
Qed.

Lemma allChars_trimEnd : forall P s, allChars P s = true -> allChars P (trimEnd s) = true.
Proof.
  intros P. induction s as [|c s IH]; simpl; [reflexivity|].
  intros H. apply andb_true_iff in H as [Hc Hs]. specialize (IH Hs).
  destruct (trimEnd s) as [|d r].
  - destruct (isWhiteSpace c); simpl; [reflexivity | now rewrite Hc].
  - simpl in IH |- *. now rewrite Hc, IH.
Qed.

(** A normalized query has no capital letter, so of the names that
    [Object.prototype] defines it can only be one of two. *)
Lemma normalized_inherited : forall query,
  arrayIncludes OBJECT_PROTOTYPE_KEYS (trim (toLowerCase query)) = true ->
  trim (toLowerCase query) = "constructor" \/ trim (toLowerCase query) = "__proto__".
Proof.
  intros query H. apply arrayIncludes_In in H.
  pose proof (allChars_trimEnd _ _ (allChars_trimStart _ _ (allChars_toLowerCase query))) as Hlow.
  fold (trim (toLowerCase query)) in Hlow.
  assert (Hkeys : forallb (fun k => String.eqb k "constructor" || String.eqb k "__proto__"
                              || negb (allChars notAsciiUpper k))%bool
                    OBJECT_PROTOTYPE_KEYS = true) by (vm_compute; reflexivity).
  rewrite forallb_forall in Hkeys. specialize (Hkeys _ H).
  rewrite Hlow in Hkeys. simpl in Hkeys. rewrite orb_false_r in Hkeys.
  apply orb_true_iff in Hkeys as [E | E]; apply String.eqb_eq in E; auto.
Qed.

Lemma ownProperty_In : forall obj key v,
  ownProperty obj key = Some v -> In (key, v) obj.
Proof.
  induction obj as [|[k w] obj IH]; intros key v; simpl; [discriminate|].
  destruct (String.eqb k key) eqn:E.
  - intros [= ->]. apply String.eqb_eq in E. subst. now left.
  - intros H. right. now apply IH.
Qed.

Lemma keyFires_triggers : forall normalized key,
  keyFires (splitWhitespace normalized) normalized key = true <-> triggers normalized key.
Proof.
  intros n key. unfold keyFires, triggers.
  rewrite orb_true_iff, arrayIncludes_In, String.eqb_eq. tauto.
Qed.

Lemma pushMatching_In : forall queryWords normalized entries terms t,
  In t (pushMatching queryWords normalized entries terms) <->
  In t terms \/
  exists key syns, In (key, syns) entries /\
                   keyFires queryWords normalized key = true /\ In t syns.
Proof.
  intros qw n. unfold pushMatching.
  induction entries as [|[k v] entries IH]; intros terms t; simpl.
  - split; [now left | intros [H | (key & syns & [] & _)]; exact H].
  - rewrite IH. destruct (keyFires qw n k) eqn:E.
    + rewrite in_app_iff. split.
      * intros [[H | H] | (key & syns & Hin & Hf & Ht)].
        -- now left.
        -- right. exists k, v. auto.
        -- right. exists key, syns. auto.
      * intros [H | (key & syns & [Heq | Hin] & Hf & Ht)].
        -- left. now left.
        -- inversion Heq; subst. left. now right.
        -- right. exists key, syns. auto.
    + split.
      * intros [H | (key & syns & Hin & Hf & Ht)]; [now left|].
        right. exists key, syns. auto.
      * intros [H | (key & syns & [Heq | Hin] & Hf & Ht)].
        -- now left.
        -- inversion Heq; subst. congruence.
        -- right. exists key, syns. auto.
Qed.

(** The expansion throws exactly on the two inherited names. *)
Lemma expandSearchQuery_throws : forall query,
  expandSearchQuery query = Throw TypeError <->
  trim (toLowerCase query) = "constructor" \/ trim (toLowerCase query) = "__proto__".
Proof.
  intros query. unfold expandSearchQuery, getProperty.
  generalize (trim (toLowerCase query)) (normalized_inherited query). intros n Hn. split.
  - destruct (ownProperty SEARCH_SYNONYMS n); cbn [bind]; [discriminate|].
    destruct (arrayIncludes OBJECT_PROTOTYPE_KEYS n) eqn:E; cbn [bind]; [|discriminate].
    intros _. now apply Hn.
  - intros [-> | ->]; vm_compute; reflexivity.
Qed.

(** What the expansion returns on every other query. *)
Lemma expandSearchQuery_returns : forall query,
  trim (toLowerCase query) <> "constructor" ->
  trim (toLowerCase query) <> "__proto__" ->
  exists own,
    (own = [] \/ In (trim (toLowerCase query), own) SEARCH_SYNONYMS) /\
    expandSearchQuery query =
      Normal (dedup (pushMatching (splitWhitespace (trim (toLowerCase query)))
                       (trim (toLowerCase query)) SEARCH_SYNONYMS
                       ([trim (toLowerCase query)] ++ own))).
Proof.
  intros query. unfold expandSearchQuery, getProperty.
  generalize (trim (toLowerCase query)) (normalized_inherited query). intros n Hn H1 H2.
  destruct (ownProperty SEARCH_SYNONYMS n) as [v|] eqn:Eo; cbn [bind].
  - exists v. split; [right; now apply ownProperty_In | reflexivity].
  - destruct (arrayIncludes OBJECT_PROTOTYPE_KEYS n) eqn:E; cbn [bind].
    + destruct (Hn eq_refl); contradiction.
    + exists []. split; [now left | reflexivity].
Qed.

(* ------------------------------------------------------------------ *)
(** ** Word-boundary matching *)

(** A check of all 256 characters settles a property of characters. *)
Lemma ascii_forallb : forall P : ascii -> bool,
  forallb (fun n => P (ascii_of_nat n)) (seq 0 256) = true -> forall c, P c = true.
Proof.
  intros P H c. rewrite forallb_forall in H.
  specialize (H (nat_of_ascii c)). rewrite ascii_nat_embedding in H.
  apply H. apply in_seq. pose proof (nat_ascii_bounded c). lia.
Qed.



Lemma lastChar_cons : forall c s, exists d, lastChar (String c s) = Some d.
Proof.
  intros c s. revert c. induction s as [|a s IH]; intros c.
  - now exists c.
  - destruct (IH a) as [d Hd]. exists d. exact Hd.
Qed.








(* ------------------------------------------------------------------ *)
(** ** Cutting strings *)

Lemma allChars_app : forall P a b,
  allChars P (a ++ b) = (allChars P a && allChars P b)%bool.
Proof.
  intros P. induction a as [|c a IH]; intros b; [reflexivity|].
  cbn [append allChars]. now rewrite IH, andb_assoc.
Qed.

Lemma lastChar_app_cons : forall a c b,
  lastChar (a ++ String c b) = lastChar (String c b).
Proof.
  induction a as [|d a IH]; intros c b; [reflexivity|].
  cbn [append]. rewrite <- (IH c b).
  change (lastChar (String d (a ++ String c b)))
    with (match (a ++ String c b)%string with
          | EmptyString => Some d
          | String _ _ => lastChar (a ++ String c b)
          end).
  destruct a; reflexivity.
Qed.

Lemma lastChar_inv : forall s d,
  lastChar s = Some d -> exists s0, s = (s0 ++ String d EmptyString)%string.
Proof.
  induction s as [|c s IH]; intros d H; [discriminate|].
  destruct s as [|e s].
  - injection H as <-. now exists EmptyString.
  - destruct (IH d H) as [s0 E]. exists (String c s0). cbn [append]. now rewrite <- E.
Qed.

Lemma allChars_lastChar : forall P s d,
  allChars P s = true -> lastChar s = Some d -> P d = true.
Proof.
  intros P s d Ha Hl. destruct (lastChar_inv _ _ Hl) as [s0 ->].
  rewrite allChars_app in Ha. apply andb_true_iff in Ha as [_ Ha].
  cbn in Ha. now rewrite andb_true_r in Ha.
Qed.

(** A stretch without the character [c] that starts a text is a prefix
    of everything up to the first [c]. *)
Lemma prefix_cut : forall (P : ascii -> bool) x y m c z,
  allChars P x = true -> P c = false ->
  (x ++ y)%string = (m ++ String c z)%string ->
  exists m', m = (x ++ m')%string /\ y = (m' ++ String c z)%string.
Proof.
  intros P. induction x as [|d x IH]; intros y m c z Hx Hc E.
  - now exists m.
  - cbn [allChars] in Hx. apply andb_true_iff in Hx as [Hd Hx].
    destruct m as [|e m]; cbn [append] in E.
    + injection E as -> _. congruence.
    + injection E as -> E. destruct (IH _ _ _ _ Hx Hc E) as (m' & -> & ->).
      now exists m'.
Qed.

Lemma append_empty_r : forall s : string, (s ++ "")%string = s.
Proof. induction s as [|c s IH]; [reflexivity|]. cbn. now rewrite IH. Qed.

Lemma append_assoc3 : forall a b c : string,
  ((a ++ b) ++ c)%string = (a ++ b ++ c)%string.
Proof.
  induction a as [|d a IH]; intros b c; [reflexivity|]. cbn [append]. now rewrite IH.
Qed.

(* ------------------------------------------------------------------ *)
(** ** The locality heuristic *)

Lemma existsb_includes_occursIn : forall (f : string -> string) (sub : string) l,
  existsb (fun x => includes (f x) sub) l = true <->
  exists x, In x l /\ occursIn sub (f x).
Proof.
  intros f sub l. rewrite existsb_exists. unfold occursIn.
  split; intros [x [Hin H]]; exists x; (split; [exact Hin|]); now apply includes_app.
Qed.

Lemma isSportsEvent_sportsTagged : forall event,
  isSportsEvent event = true <-> sportsTagged event.
Proof.
  intros event. unfold isSportsEvent, sportsTagged.
  destruct (tags event) as [| |ts].
  - split; [discriminate | intros (ts & tag & H & _); discriminate].
  - split; [discriminate | intros (ts & tag & H & _); discriminate].
  - rewrite (existsb_includes_occursIn toLowerCase "sport" ts). split.
    + intros [tag [Hin H]]. exists ts, tag. auto.
    + intros (ts' & tag & [= <-] & Hin & H). exists tag. auto.
Qed.

Lemma existsb_includes_in_text : forall (text : string) l,
  existsb (fun sub => includes text sub) l = true <->
  exists sub, In sub l /\ occursIn sub text.
Proof.
  intros text l. rewrite existsb_exists. unfold occursIn.
  split; intros [x [Hin H]]; exists x; (split; [exact Hin|]); now apply includes_app.
Qed.

(** C3. The locality heuristic returns true for every event without a
    tag that contains "sport" (in any case of the letters); for a
    sports-tagged event it returns true if and only if the lower-cased
    location contains an entry of the Berkeley allowlist.  A sports event
    at "Stanford, CA" is excluded and the same event at "Haas Pavilion,
    Berkeley, CA" is included. *)
Theorem isHomeGame_locality : forall event,
  (~ sportsTagged event -> isHomeGame event = Normal true) /\
  (sportsTagged event -> (isHomeGame event = Normal true <-> atBerkeley event)) /\
  (tags event = Val ["Sports"] -> location event = Val "Stanford, CA" ->
   isHomeGame event = Normal false) /\
  (tags event = Val ["Sports"] -> location event = Val "Haas Pavilion, Berkeley, CA" ->
   isHomeGame event = Normal true).
Proof.
  intros event. split; [|split; [|split]].
  - intros Hns. unfold isHomeGame.
    destruct (isSportsEvent event) eqn:E; [|reflexivity].
    apply isSportsEvent_sportsTagged in E. contradiction.
  - intros Hs. apply isSportsEvent_sportsTagged in Hs.
    unfold isHomeGame, atBerkeley. rewrite Hs. cbn [negb].
    destruct (location event) as [| |loc].
    + split; [discriminate | intros (loc & place & H & _); discriminate].
    + split; [discriminate | intros (loc & place & H & _); discriminate].
    + pose proof (existsb_includes_in_text (toLowerCase loc) BERKELEY_LOCATIONS) as Hex.
      cbv zeta. set (b := existsb _ BERKELEY_LOCATIONS) in *. clearbody b. split.
      * intros [= H]. apply Hex in H as [place [Hin H]].
        exists loc, place. auto.
      * intros (loc' & place & [= <-] & Hin & H). f_equal.
        apply Hex. exists place. auto.
  - intros Ht Hl. unfold isHomeGame, isSportsEvent. rewrite Ht, Hl. reflexivity.
  - intros Ht Hl. unfold isHomeGame, isSportsEvent. rewrite Ht, Hl. reflexivity.
Qed.

(** The heuristic at work on three entries of a snapshot. *)
Lemma isHomeGame_locality_witness :
  (~ sportsTagged deepLearningEvent /\ isHomeGame deepLearningEvent = Normal true) /\
  (sportsTagged homeGame /\ (isHomeGame homeGame = Normal true <-> atBerkeley homeGame)) /\
  isHomeGame awayGame = Normal false /\
  isHomeGame homeGame = Normal true.
Proof.
  assert (Hn : ~ sportsTagged deepLearningEvent).
  { intros H. apply isSportsEvent_sportsTagged in H. discriminate H. }
  assert (Hs : sportsTagged homeGame).
  { apply isSportsEvent_sportsTagged. reflexivity. }
  split; [|split; [|split]].
  - split; [exact Hn | exact (proj1 (isHomeGame_locality deepLearningEvent) Hn)].
  - split; [exact Hs | exact (proj1 (proj2 (isHomeGame_locality homeGame)) Hs)].
  - exact (proj1 (proj2 (proj2 (isHomeGame_locality awayGame))) eq_refl eq_refl).
  - exact (proj2 (proj2 (proj2 (isHomeGame_locality homeGame))) eq_refl eq_refl).
Defined.

(* ------------------------------------------------------------------ *)
(** ** The text match evaluator *)


Lemma termMatches_whole_word : forall text term,
  In term WHOLE_WORD_ONLY -> termMatches text term = wordBoundaryTest term text.
Proof.
  intros text term H. unfold termMatches.
  apply arrayIncludes_In in H. now rewrite H.
Qed.


Lemma eventMatchesSearch_single : forall event term,
  eventMatchesSearch event [term] = termMatches (searchableText event) term.
Proof.
  intros event term. unfold eventMatchesSearch. cbn [existsb]. apply orb_false_r.
Qed.























(** Every part is searched: the tag, the organizer and the description
    of an event are found like its title, and a term can match across
    the space between two parts. *)
Example every_part_is_searched :
  eventMatchesSearch deepLearningEvent ["academic"] = true /\
  eventMatchesSearch deepLearningEvent ["eecs"] = true /\
  eventMatchesSearch deepLearningEvent ["deep learning"] = true /\
  eventMatchesSearch deepLearningEvent ["seminar deep"] = true /\
  eventMatchesSearch noTagsNoLocation ["athletics"] = true.
Proof. repeat split. Qed.

Example training_contains_ai_letters :
  occursIn "ai" (searchableText trainingEvent) /\
  eventMatchesSearch trainingEvent ["train"] = true.
Proof.
  split; [|reflexivity]. apply includes_app. reflexivity.
Qed.

(* ------------------------------------------------------------------ *)
(** ** What synonym expansion returns *)

Lemma whiteOrEdge_notWhite : forall s,
  allChars notWhiteSpace s = true ->
  (whiteOrEdge (lastChar s) = true -> s = EmptyString) /\
  (whiteOrEdge (headChar s) = true -> s = EmptyString).
Proof.
  intros s Hs. split; intros H.
  - destruct (lastChar s) as [d|] eqn:E.
    + pose proof (allChars_lastChar _ _ _ Hs E) as Hd. unfold notWhiteSpace in Hd.
      cbn in H. rewrite H in Hd. discriminate.
    + destruct s as [|c s]; [reflexivity|].
      destruct (lastChar_cons c s) as [d Hd]. congruence.
  - destruct s as [|c s]; [reflexivity|]. cbn in H, Hs.
    unfold notWhiteSpace in Hs at 1. rewrite H in Hs. discriminate.
Qed.

(** The only word of a text without white space is the text. *)
Lemma isWordOf_notWhite : forall w cur,
  allChars notWhiteSpace cur = true ->
  (isWordOf w cur <-> w = cur /\ w <> EmptyString).
Proof.
  intros w cur Hc. split.
  - intros (Hne & Hw & pre & post & E & Hp & Hq). split; [|exact Hne].
    rewrite E in Hc. rewrite !allChars_app in Hc.
    apply andb_true_iff in Hc as [Hpre Hc]. apply andb_true_iff in Hc as [_ Hpost].
    apply (proj1 (whiteOrEdge_notWhite pre Hpre)) in Hp.
    apply (proj2 (whiteOrEdge_notWhite post Hpost)) in Hq.
    subst pre post. cbn [append] in E. now rewrite append_empty_r in E.
  - intros [-> Hne]. split; [exact Hne | split; [exact Hc|]].
    exists EmptyString, EmptyString. cbn [append]. rewrite append_empty_r.
    repeat split.
Qed.

(** The words of a text whose first white space is [c]: the stretch
    before [c], and the words of what follows [c]. *)
Lemma isWordOf_white : forall w cur c s,
  allChars notWhiteSpace cur = true -> isWhiteSpace c = true ->
  (isWordOf w (cur ++ String c s) <->
   (w = cur /\ w <> EmptyString) \/ isWordOf w s).
Proof.
  intros w cur c s Hcur Hc.
  assert (Pc : notWhiteSpace c = false) by (unfold notWhiteSpace; now rewrite Hc).
  split.
  - intros (Hne & Hw & pre & post & E & Hp & Hq).
    destruct (lastChar pre) as [d|] eqn:El.
    + (* the occurrence starts after some white space *)
      right. cbn in Hp. destruct (lastChar_inv _ _ El) as [pre0 ->].
      rewrite append_assoc3 in E. cbn [append] in E.
      assert (Pd : notWhiteSpace d = false) by (unfold notWhiteSpace; now rewrite Hp).
      destruct (prefix_cut _ _ _ _ _ _ Hcur Pd E) as (m' & -> & E2).
      split; [exact Hne | split; [exact Hw|]].
      destruct m' as [|e m']; cbn [append] in E2; injection E2 as -> ->.
      * exists EmptyString, post. repeat split. exact Hq.
      * exists (m' ++ String d EmptyString)%string, post.
        split; [now rewrite append_assoc3|]. split; [|exact Hq].
        now rewrite lastChar_app_cons.
    + (* the occurrence starts the text *)
      left. split; [|exact Hne].
      assert (pre = EmptyString) as ->.
      { destruct pre as [|e pre]; [reflexivity|].
        destruct (lastChar_cons e pre) as [d Hd]. congruence. }
      cbn [append] in E.
      destruct post as [|q post].
      * rewrite append_empty_r in E. subst w. rewrite allChars_app in Hw.
        apply andb_true_iff in Hw as [_ Hw]. cbn in Hw. now rewrite Pc in Hw.
      * cbn in Hq.
        assert (Pq : notWhiteSpace q = false) by (unfold notWhiteSpace; now rewrite Hq).
        destruct (prefix_cut _ _ _ _ _ _ Hcur Pq E) as (m1 & E1 & _).
        symmetry in E.
        destruct (prefix_cut _ _ _ _ _ _ Hw Pc E) as (m2 & E2 & _).
        rewrite E1 in E2. rewrite append_assoc3 in E2.
        assert (m1 = EmptyString /\ m2 = EmptyString) as [-> _].
        { assert (L : String.length cur
                      = (String.length cur + (String.length m1 + String.length m2))%nat).
          { rewrite E2 at 1. clear. induction cur as [|x cur IH]; cbn [append String.length].
            - induction m1 as [|y m1 IH1]; cbn [append String.length]; [reflexivity|].
              now rewrite IH1.
            - now rewrite IH. }
          destruct m1; destruct m2; cbn [String.length] in L; try lia. now split. }
        now rewrite append_empty_r in E1.
  - intros [[-> Hne] | (Hne & Hw & pre & post & -> & Hp & Hq)].
    + split; [exact Hne | split; [exact Hcur|]].
      exists EmptyString, (String c s). repeat split. exact Hc.
    + split; [exact Hne | split; [exact Hw|]].
      exists (cur ++ String c pre)%string, post.
      split; [now rewrite append_assoc3|]. split; [|exact Hq].
      rewrite lastChar_app_cons. destruct pre as [|e pre]; [exact Hc|].
      assert (lastChar (String c (String e pre)) = lastChar (String e pre)) as -> by reflexivity.
      exact Hp.
Qed.

(** [split(/\s+/)] gives the whitespace-delimited words, and besides
    them only empty pieces. *)
Lemma splitWsFrom_words : forall s cur inRun w,
  allChars notWhiteSpace cur = true -> (inRun = true -> cur = EmptyString) ->
  w <> EmptyString ->
  (In w (splitWsFrom cur inRun s) <-> isWordOf w (cur ++ s)).
Proof.
  induction s as [|c s IH]; intros cur inRun w Hcur Hrun Hne.
  - cbn [splitWsFrom]. rewrite append_empty_r, (isWordOf_notWhite w cur Hcur).
    cbn [In]. split; [intros [<- | []]; now split | intros [-> _]; now left].
  - cbn [splitWsFrom]. destruct (isWhiteSpace c) eqn:Hc.
    + rewrite (isWordOf_white w cur c s Hcur Hc).
      specialize (IH EmptyString true w eq_refl (fun _ => eq_refl) Hne).
      cbn [append] in IH. destruct inRun.
      * rewrite IH. rewrite (Hrun eq_refl). split; [now right|].
        intros [[-> _] | H]; [contradiction | exact H].
      * cbn [In]. rewrite IH. split.
        -- intros [<- | H]; [left; now split | now right].
        -- intros [[-> _] | H]; [now left | now right].
    + rewrite (IH (cur ++ String c EmptyString)%string false w).
      * now rewrite append_assoc3.
      * rewrite allChars_app, Hcur. cbn. unfold notWhiteSpace. now rewrite Hc.
      * discriminate.
      * exact Hne.
Qed.

Lemma splitWhitespace_words : forall s w,
  w <> EmptyString -> (In w (splitWhitespace s) <-> isWordOf w s).
Proof.
  intros s w Hne. unfold splitWhitespace.
  now rewrite (splitWsFrom_words s EmptyString false w eq_refl (fun H => eq_refl) Hne).
Qed.

Lemma SEARCH_SYNONYMS_keys : forall key syns,
  In (key, syns) SEARCH_SYNONYMS -> key <> EmptyString.
Proof.
  intros key syns H.
  assert (Hk : forallb (fun e => negb (String.eqb (fst e) EmptyString)) SEARCH_SYNONYMS = true)
    by (vm_compute; reflexivity).
  rewrite forallb_forall in Hk. specialize (Hk _ H). cbn [fst] in Hk.
  intros ->. discriminate.
Qed.

Lemma triggers_firedBy : forall normalized key,
  key <> EmptyString -> (triggers normalized key <-> firedBy normalized key).
Proof.
  intros n key Hne. unfold triggers, firedBy.
  now rewrite (splitWhitespace_words n key Hne).
Qed.

(** C6 (fails on the code). For the queries whose normalized form
    (lower-cased, trimmed) is "constructor" or "__proto__" synonym
    expansion returns no term list: it throws a TypeError.  For every
    other query it returns a list of terms that contains the normalized
    query, has no duplicates, and holds besides the query the related
    terms of exactly those vocabulary keys that equal the whole
    normalized query or one of its whitespace-delimited words: every
    related term of such a key is in the list, and every term of the
    list other than the query itself is a related term of such a key.
    The key "art" contributes nothing to the query "smart". *)
Theorem expandSearchQuery_inherited_name_throws : forall query,
  (trim (toLowerCase query) = "constructor" \/ trim (toLowerCase query) = "__proto__" ->
   expandSearchQuery query = Throw TypeError) /\
  (trim (toLowerCase query) <> "constructor" ->
   trim (toLowerCase query) <> "__proto__" ->
   exists terms,
     expandSearchQuery query = Normal terms /\
     In (trim (toLowerCase query)) terms /\
     NoDup terms /\
     (forall t,
        In t terms <->
        t = trim (toLowerCase query) \/
        exists key syns,
          In (key, syns) SEARCH_SYNONYMS /\
          firedBy (trim (toLowerCase query)) key /\ In t syns)) /\
  expandSearchQuery "constructor" = Throw TypeError /\
  expandSearchQuery " Constructor " = Throw TypeError /\
  expandSearchQuery "__proto__" = Throw TypeError /\
  expandSearchQuery "smart" = Normal ["smart"].
Proof.
  intros query. split; [|split; [|repeat split]].
  - apply expandSearchQuery_throws.
  - intros H1 H2.
    destruct (expandSearchQuery_returns query H1 H2) as [own [Hown ->]].
    set (n := trim (toLowerCase query)) in *.
    assert (Hchar : forall t,
               In t (dedup (pushMatching (splitWhitespace n) n SEARCH_SYNONYMS ([n] ++ own))) <->
               t = n \/ exists key syns,
                   In (key, syns) SEARCH_SYNONYMS /\ firedBy n key /\ In t syns).
    { intros t. rewrite dedup_In, pushMatching_In, in_app_iff. split.
      - intros [[[H | []] | H] | (key & syns & Hin & Hf & Ht)].
        + left. now symmetry.
        + destruct Hown as [-> | Hown]; [contradiction|].
          right. exists n, own. split; [exact Hown|]. split; [now left | exact H].
        + right. exists key, syns. split; [exact Hin|]. split; [|exact Ht].
          apply (triggers_firedBy n key (SEARCH_SYNONYMS_keys _ _ Hin)).
          now apply keyFires_triggers.
      - intros [-> | (key & syns & Hin & Hf & Ht)].
        + left. left. now left.
        + right. exists key, syns. split; [exact Hin|]. split; [|exact Ht].
          apply keyFires_triggers.
          now apply (triggers_firedBy n key (SEARCH_SYNONYMS_keys _ _ Hin)). }
    eexists. split; [reflexivity|]. split; [|split].
    + apply Hchar. now left.
    + apply dedup_NoDup.
    + exact Hchar.
Qed.

(** A key that is only part of a word of the query contributes nothing. *)
Example expandSearchQuery_smart :
  expandSearchQuery "smart" = Normal ["smart"] /\
  expandSearchQuery " Smart ART " =
    Normal ["smart art"; "arts"; "exhibition"; "gallery"; "museum"; "visual"] /\
  expandSearchQuery "" = Normal [""].
Proof. repeat split. Qed.

(* ------------------------------------------------------------------ *)
(** ** Expansion and matching together: "ml" and "machine learning" *)

Lemma matchesSearch_expanded : forall filters event terms,
  trim (searchQuery filters) <> EmptyString ->
  expandSearchQuery (trim (searchQuery filters)) = Normal terms ->
  matchesSearch filters event = Normal (eventMatchesSearch event terms).
Proof.
  intros filters event terms Hne He. unfold matchesSearch.
  destruct (String.eqb (trim (searchQuery filters)) EmptyString) eqn:E.
  - apply String.eqb_eq in E. contradiction.
  - rewrite He. reflexivity.
Qed.

Lemma eventMatchesSearch_cons : forall event t terms,
  eventMatchesSearch event (t :: terms) =
  (termMatches (searchableText event) t || eventMatchesSearch event terms)%bool.
Proof. reflexivity. Qed.

Lemma eventMatchesSearch_nil : forall event, eventMatchesSearch event [] = false.
Proof. reflexivity. Qed.

(** C8 (amended). Take an event whose searchable text contains "deep
    learning" and none of the terms "machine learning", "artificial
    intelligence", or the whole words "ml" and "ai".  A literal search
    for "ml" or for "machine learning" does not match it.  With synonym
    expansion the query "machine learning" matches it, because "deep
    learning" is among the related terms of that key; the query "ml"
    still does not match it, because the related terms of "ml" are
    "machine learning", "ai" and "artificial intelligence" only. *)
Theorem deep_learning_found_by_machine_learning_only : forall event range cat,
  includes (searchableText event) "deep learning" = true ->
  includes (searchableText event) "machine learning" = false ->
  includes (searchableText event) "artificial intelligence" = false ->
  wordBoundaryTest "ml" (searchableText event) = false ->
  wordBoundaryTest "ai" (searchableText event) = false ->
  eventMatchesSearch event ["ml"] = false /\
  eventMatchesSearch event ["machine learning"] = false /\
  matchesSearch (mkFilters range cat "machine learning") event = Normal true /\
  matchesSearch (mkFilters range cat "ml") event = Normal false.
Proof.
  intros event range cat Hdl Hml Hai Hwml Hwai.
  assert (Tml : termMatches (searchableText event) "ml" = false)
    by (rewrite termMatches_whole_word; [exact Hwml | simpl; tauto]).
  assert (Tai : termMatches (searchableText event) "ai" = false)
    by (rewrite termMatches_whole_word; [exact Hwai | simpl; tauto]).
  assert (Tmachine : termMatches (searchableText event) "machine learning" = false)
    by exact Hml.
  assert (Tart : termMatches (searchableText event) "artificial intelligence" = false)
    by exact Hai.
  assert (Tdeep : termMatches (searchableText event) "deep learning" = true)
    by exact Hdl.
  split; [|split; [|split]].
  - now rewrite eventMatchesSearch_single.
  - now rewrite eventMatchesSearch_single.
  - rewrite (matchesSearch_expanded _ event
               ["machine learning"; "ml"; "ai"; "artificial intelligence"; "deep learning"]);
      [|discriminate|reflexivity].
    rewrite !eventMatchesSearch_cons, eventMatchesSearch_nil.
    now rewrite Tml, Tai, Tmachine, Tart, Tdeep.
  - rewrite (matchesSearch_expanded _ event
               ["ml"; "machine learning"; "ai"; "artificial intelligence"]);
      [|discriminate|reflexivity].
    rewrite !eventMatchesSearch_cons, eventMatchesSearch_nil.
    now rewrite Tml, Tai, Tmachine, Tart.
Qed.

Lemma deep_learning_found_by_machine_learning_only_witness :
  includes (searchableText deepLearningEvent) "deep learning" = true /\
  includes (searchableText deepLearningEvent) "machine learning" = false /\
  includes (searchableText deepLearningEvent) "artificial intelligence" = false /\
  wordBoundaryTest "ml" (searchableText deepLearningEvent) = false /\
  wordBoundaryTest "ai" (searchableText deepLearningEvent) = false /\
  eventMatchesSearch deepLearningEvent ["ml"] = false /\
  eventMatchesSearch deepLearningEvent ["machine learning"] = false /\
  matchesSearch (mkFilters dr_upcoming "All" "machine learning") deepLearningEvent
    = Normal true /\
  matchesSearch (mkFilters dr_upcoming "All" "ml") deepLearningEvent = Normal false.
Proof.
  do 5 (split; [reflexivity|]).
  exact (deep_learning_found_by_machine_learning_only deepLearningEvent dr_upcoming "All"
           eq_refl eq_refl eq_refl eq_refl eq_refl).
Defined.

(** C8 (as stated) fails: the description of the event is "deep learning
    models", and the search for "ml", expansion applied, does not match
    it. *)
Lemma ml_query_misses_deep_learning :
  description deepLearningEvent = Val "deep learning models" /\
  searchableText deepLearningEvent = "weekly seminar deep learning models eecs academic" /\
  expandSearchQuery "ml" = Normal ["ml"; "machine learning"; "ai"; "artificial intelligence"] /\
  matchesSearch (mkFilters dr_upcoming "All" "ml") deepLearningEvent = Normal false.
Proof. repeat split. Qed.

(* ------------------------------------------------------------------ *)
(** ** The date window *)

Lemma DateString_head : forall t,
  exists c rest, DateString t = String c rest /\ c <> "I"%char.
Proof.
  intros t. unfold DateString.
  assert (Hw : (Z.to_nat (WeekDay t) < 7)%nat).
  { unfold WeekDay. pose proof (Z.mod_pos_bound (Day t + 4) 7). lia. }
  destruct (Z.to_nat (WeekDay t)) as [|[|[|[|[|[|[|n]]]]]]]; [..|lia];
    cbn [nth WEEKDAY_NAMES append]; eexists; eexists; (split; [reflexivity | discriminate]).
Qed.

(** The string of an invalid date is the string of no valid date. *)
Lemma toDateString_invalid : forall h tv,
  String.eqb (toDateString h None) (toDateString h (Some tv)) = false.
Proof.
  intros h tv. cbn [toDateString].
  destruct (DateString_head (LocalTime h tv)) as (c & rest & -> & Hc).
  apply String.eqb_neq. intros H. inversion H. congruence.
Qed.

(** The callback throws when, and only when, one of its two fallible
    steps does; category and date play no part in it. *)
Lemma keepEvent_throws : forall h now filters event,
  throws (keepEvent h now filters event) =
  (throws (matchesSearch filters event) || throws (isHomeGame event))%bool.
Proof.
  intros h now filters event. unfold keepEvent.
  destruct (matchesSearch filters event) as [s|]; cbn [bind throws]; [|reflexivity].
  destruct (isHomeGame event) as [l|]; reflexivity.
Qed.

Lemma keepEvent_date_fails : forall h now filters event,
  matchesDate h now filters event = false ->
  throws (keepEvent h now filters event) = false ->
  keepEvent h now filters event = Normal false.
Proof.
  intros h now filters event Hd. unfold keepEvent. rewrite Hd.
  destruct (matchesSearch filters event) as [s|]; cbn [bind throws]; [|discriminate].
  destruct (isHomeGame event) as [l|]; cbn [bind throws]; [|discriminate].
  intros _. now rewrite andb_false_r.
Qed.

(** C9 (amended). An event whose date is unparsable (its [Date] is
    invalid: a string that the host's parser rejects, or a missing
    [date] key) fails the date predicate under 'today' and under 'week'
    and passes it under 'upcoming'.  The date predicate is a total function, so it
    throws nothing: the callback throws on the event only if the search
    or the locality step does.  Under 'today' and 'week' such an event,
    whenever those two steps raise nothing on it, is simply left out:
    the batch is filtered as if the event were not in it. *)
Theorem unparsable_date_fails_closed : forall h now filters event,
  newDate h (date event) = None ->
  (dateRange filters = dr_today -> matchesDate h now filters event = false) /\
  (dateRange filters = dr_week -> matchesDate h now filters event = false) /\
  (dateRange filters = dr_upcoming -> matchesDate h now filters event = true) /\
  throws (keepEvent h now filters event) =
    (throws (matchesSearch filters event) || throws (isHomeGame event))%bool /\
  (dateRange filters = dr_today \/ dateRange filters = dr_week ->
   throws (keepEvent h now filters event) = false ->
   forall before after,
     filteredEvents h now filters (before ++ event :: after) =
     filteredEvents h now filters (before ++ after)).
Proof.
  intros h now filters event Hinv.
  assert (Ht : dateRange filters = dr_today -> matchesDate h now filters event = false).
  { intros Hr. unfold matchesDate. rewrite Hr, Hinv. apply toDateString_invalid. }
  assert (Hw : dateRange filters = dr_week -> matchesDate h now filters event = false).
  { intros Hr. unfold matchesDate. rewrite Hr, Hinv. reflexivity. }
  split; [exact Ht | split; [exact Hw | split; [|split]]].
  - intros Hr. unfold matchesDate. rewrite Hr. reflexivity.
  - apply keepEvent_throws.
  - intros Hr Hthrows before after. unfold filteredEvents.
    apply arrayFilter_drop. apply keepEvent_date_fails; [|exact Hthrows].
    destruct Hr as [Hr | Hr]; auto.
Qed.

Lemma unparsable_date_fails_closed_witness :
  newDate hostPDT (date undatedEvent) = None /\
  matchesDate hostPDT (localInstant hostPDT 2024 6 10 12 0)
              (mkFilters dr_today "All" "") undatedEvent = false /\
  matchesDate hostPDT (localInstant hostPDT 2024 6 10 12 0)
              (mkFilters dr_week "All" "") undatedEvent = false /\
  matchesDate hostPDT (localInstant hostPDT 2024 6 10 12 0)
              (mkFilters dr_upcoming "All" "") undatedEvent = true /\
  filteredEvents hostPDT (localInstant hostPDT 2024 6 10 12 0) (mkFilters dr_week "All" "")
                 ([homeGame] ++ undatedEvent :: [aiEthicsTalk]) =
  filteredEvents hostPDT (localInstant hostPDT 2024 6 10 12 0) (mkFilters dr_week "All" "")
                 ([homeGame] ++ [aiEthicsTalk]).
Proof.
  pose proof (unparsable_date_fails_closed hostPDT (localInstant hostPDT 2024 6 10 12 0)
                (mkFilters dr_today "All" "") undatedEvent eq_refl) as Htoday.
  pose proof (unparsable_date_fails_closed hostPDT (localInstant hostPDT 2024 6 10 12 0)
                (mkFilters dr_week "All" "") undatedEvent eq_refl) as Hweek.
  pose proof (unparsable_date_fails_closed hostPDT (localInstant hostPDT 2024 6 10 12 0)
                (mkFilters dr_upcoming "All" "") undatedEvent eq_refl) as Hup.
  split; [reflexivity|]. split; [|split; [|split]].
  - exact (proj1 Htoday eq_refl).
  - exact (proj1 (proj2 Hweek) eq_refl).
  - exact (proj1 (proj2 (proj2 Hup)) eq_refl).
  - exact (proj2 (proj2 (proj2 (proj2 Hweek))) (or_intror eq_refl) eq_refl
             [homeGame] [aiEthicsTalk]).
Defined.

(** C9 (as stated) fails.  The date "2024-02-30" is malformed: it has
    the shape that the ingestion check lets through, but February 2024
    has 29 days and the date-only rule rejects the string.  A host whose
    parser is lenient reads it as 1 March 2024, and the event passes
    'week' and 'today'; on a host with a strict parser it fails both. *)
Lemma malformed_date_kept_by_lenient_host :
  isoDateRegexTest "2024-02-30" = true /\
  DaysInMonth 2024 1 = 29 /\
  parseDateOnly "2024-02-30" = None /\
  newDate hostLenient (Val "2024-02-30") = newDate hostLenient (Val "2024-03-01") /\
  matchesDate hostLenient (localInstant hostLenient 2024 2 27 12 0)
              (mkFilters dr_week "All" "") (eventDated "2024-02-30") = true /\
  matchesDate hostLenient (localInstant hostLenient 2024 2 29 12 0)
              (mkFilters dr_today "All" "") (eventDated "2024-02-30") = true /\
  filteredEvents hostLenient (localInstant hostLenient 2024 2 27 12 0)
                 (mkFilters dr_week "All" "") [eventDated "2024-02-30"]
    = Normal [eventDated "2024-02-30"] /\
  filteredEvents hostPDT (localInstant hostPDT 2024 2 27 12 0)
                 (mkFilters dr_week "All" "") [eventDated "2024-02-30"]
    = Normal [].
Proof. repeat split; vm_compute; reflexivity. Qed.

(** A missing [date] key gives an invalid date as well; [date: null]
    does not: it is read as the epoch. *)
Example newDate_missing_and_null : forall h,
  newDate h Undefined = None /\ newDate h Null = Some 0.
Proof. intros h. split; reflexivity. Qed.

Lemma arrayFilter_ext : forall (A : Type) (f g : A -> Completion bool) l,
  (forall x, f x = g x) -> arrayFilter f l = arrayFilter g l.
Proof.
  intros A f g l H. induction l as [|x l IH]; simpl; [reflexivity|].
  now rewrite H, IH.
Qed.

(** C10. When [dateRange] is one of the reserved values 'month' and
    'weekend' the date predicate is true of every event at every
    instant, as it is for 'upcoming'; the whole filter then returns what
    it returns for 'upcoming'. *)
Theorem reserved_ranges_unrestricted : forall h now cat query event allEvents,
  matchesDate h now (mkFilters dr_month cat query) event = true /\
  matchesDate h now (mkFilters dr_weekend cat query) event = true /\
  matchesDate h now (mkFilters dr_upcoming cat query) event = true /\
  filteredEvents h now (mkFilters dr_month cat query) allEvents =
    filteredEvents h now (mkFilters dr_upcoming cat query) allEvents /\
  filteredEvents h now (mkFilters dr_weekend cat query) allEvents =
    filteredEvents h now (mkFilters dr_upcoming cat query) allEvents.
Proof.
  intros h now cat query event allEvents.
  split; [reflexivity | split; [reflexivity | split; [reflexivity | split]]];
    unfold filteredEvents; apply arrayFilter_ext; intros x; reflexivity.
Qed.

(** The same for a filter state given as a record. *)
Lemma matchesDate_reserved : forall h now filters event,
  dateRange filters = dr_month \/ dateRange filters = dr_weekend ->
  matchesDate h now filters event = true.
Proof.
  intros h now filters event [H | H]; unfold matchesDate; rewrite H; reflexivity.
Qed.

(* ------------------------------------------------------------------ *)
(** ** Calendar arithmetic and the shape of the two windows *)

(** [YearFromDay] meets its specification: the year that holds day [d]. *)
Lemma YearFromDay_spec : forall d,
  DayFromYear (YearFromDay d) <= d < DayFromYear (YearFromDay d + 1).
Proof.
  intros d. unfold YearFromDay.
  set (y0 := 1970 + d * 400 / 146097).
  destruct (Z.leb_spec (DayFromYear (y0 + 1)) d) as [H1|H1];
  [|destruct (Z.leb_spec (DayFromYear y0) d) as [H2|H2]];
  unfold DayFromYear in *; subst y0; Z.div_mod_to_equations; lia.
Qed.

Lemma monthOfDay_range : forall leap dwy, 0 <= monthOfDay leap dwy <= 11.
Proof.
  intros. unfold monthOfDay.
  repeat match goal with |- context [if ?b then _ else _] => destruct b end; lia.
Qed.

(** Putting the parts of a time value together again, [k] days on. *)
Lemma MakeDay_of_parts : forall t k,
  MakeDay (YearFromTime t) (MonthFromTime t) (DateFromTime t + k) = Day t + k.
Proof.
  intros t k. unfold MakeDay, MonthFromTime, DateFromTime.
  set (leap := InLeapYear (YearFromTime t)).
  pose proof (monthOfDay_range leap (DayWithinYear t)) as Hm.
  set (m := monthOfDay leap (DayWithinYear t)) in *.
  replace (m / 12) with 0 by (symmetry; apply Z.div_small; lia).
  rewrite Z.mod_small by lia. rewrite Z.add_0_r. fold leap.
  unfold DayWithinYear. lia.
Qed.

Lemma InLeapYear_cases : forall y, InLeapYear y = 0 \/ InLeapYear y = 1.
Proof.
  intros y. unfold InLeapYear.
  repeat match goal with |- context [if ?b then _ else _] => destruct b end; auto.
Qed.

Lemma DayFromYear_succ : forall y,
  DayFromYear (y + 1) = DayFromYear y + 365 + InLeapYear y.
Proof.
  intros y. unfold DayFromYear, InLeapYear.
  destruct (Z.eqb_spec (y mod 4) 0); cbn [negb];
    [destruct (Z.eqb_spec (y mod 100) 0); cbn [negb];
     [destruct (Z.eqb_spec (y mod 400) 0); cbn [negb]|]|];
    Z.div_mod_to_equations; lia.
Qed.

Lemma DayFromYear_mono : forall y1 y2, y1 <= y2 -> DayFromYear y1 <= DayFromYear y2.
Proof.
  intros y1 y2 H. unfold DayFromYear. Z.div_mod_to_equations. lia.
Qed.

Lemma YearFromDay_unique : forall y d,
  DayFromYear y <= d < DayFromYear (y + 1) -> YearFromDay d = y.
Proof.
  intros y d H. pose proof (YearFromDay_spec d) as S.
  destruct (Z.lt_trichotomy (YearFromDay d) y) as [L | [E | G]]; [|exact E|].
  - pose proof (DayFromYear_mono (YearFromDay d + 1) y). lia.
  - pose proof (DayFromYear_mono (y + 1) (YearFromDay d)). lia.
Qed.

Lemma Day_MakeDate : forall day, Day (MakeDate day 0) = day.
Proof.
  intros day. unfold Day, MakeDate. rewrite Z.add_0_r. apply Z.div_mul. discriminate.
Qed.

Lemma monthOfDay_in_month : forall leap m d,
  leap = 0 \/ leap = 1 -> 0 <= m <= 11 ->
  1 <= d <= monthStart leap (m + 1) - monthStart leap m ->
  monthOfDay leap (monthStart leap m + d - 1) = m.
Proof.
  intros leap m d Hl Hm Hd.
  destruct Hl as [-> | ->]; month_cases m;
    simpl (monthStart _ _) in Hd; unfold monthOfDay; simpl (monthStart _ _);
    repeat match goal with
           | |- (if ?a <? ?b then _ else _) = _ =>
               destruct (Z.ltb_spec a b); [try lia; reflexivity | try lia]
           end; reflexivity.
Qed.

(** Year, month and day of midnight of a calendar day are that day's. *)
Lemma civil_roundtrip : forall y m d,
  0 <= m <= 11 -> 1 <= d <= DaysInMonth y m ->
  YearFromTime (MakeDate (MakeDay y m d) 0) = y /\
  MonthFromTime (MakeDate (MakeDay y m d) 0) = m /\
  DateFromTime (MakeDate (MakeDay y m d) 0) = d.
Proof.
  intros y m d Hm Hd.
  assert (Hday : MakeDay y m d = DayFromYear y + monthStart (InLeapYear y) m + d - 1).
  { unfold MakeDay. replace (m / 12) with 0 by (symmetry; apply Z.div_small; lia).
    rewrite Z.mod_small by lia. now rewrite Z.add_0_r. }
  unfold DaysInMonth in Hd.
  assert (Hy : YearFromTime (MakeDate (MakeDay y m d) 0) = y).
  { unfold YearFromTime. rewrite Day_MakeDate, Hday. apply YearFromDay_unique.
    rewrite DayFromYear_succ.
    destruct (InLeapYear_cases y) as [E | E]; rewrite E in *; month_cases m;
      simpl (monthStart _ _) in Hd |- *; lia. }
  assert (Hdwy : DayWithinYear (MakeDate (MakeDay y m d) 0)
                 = monthStart (InLeapYear y) m + d - 1).
  { unfold DayWithinYear. rewrite Hy, Day_MakeDate, Hday. lia. }
  split; [exact Hy|].
  unfold MonthFromTime, DateFromTime. rewrite Hy, Hdwy.
  rewrite (monthOfDay_in_month _ m d (InLeapYear_cases y) Hm Hd).
  split; [reflexivity | lia].
Qed.

(** The date string depends on the day alone, and tells the days of the
    week apart. *)
Lemma DateString_Day : forall t1 t2, Day t1 = Day t2 -> DateString t1 = DateString t2.
Proof.
  intros t1 t2 H.
  unfold DateString, WeekDay, MonthFromTime, DateFromTime, DayWithinYear, YearFromTime.
  now rewrite H.
Qed.

Lemma DateString_weekday : forall t1 t2,
  WeekDay t1 <> WeekDay t2 -> DateString t1 <> DateString t2.
Proof.
  intros t1 t2 Hne Heq. unfold DateString in Heq.
  assert (H1 : 0 <= WeekDay t1 < 7) by (apply Z.mod_pos_bound; lia).
  assert (H2 : 0 <= WeekDay t2 < 7) by (apply Z.mod_pos_bound; lia).
  assert (E1 : WeekDay t1 = Z.of_nat (Z.to_nat (WeekDay t1))) by lia.
  assert (E2 : WeekDay t2 = Z.of_nat (Z.to_nat (WeekDay t2))) by lia.
  assert (B1 : (Z.to_nat (WeekDay t1) < 7)%nat) by lia.
  assert (B2 : (Z.to_nat (WeekDay t2) < 7)%nat) by lia.
  destruct (Z.to_nat (WeekDay t1)) as [|[|[|[|[|[|[|n1]]]]]]]; [..|lia];
    (destruct (Z.to_nat (WeekDay t2)) as [|[|[|[|[|[|[|n2]]]]]]]; [..|lia]);
    cbn [nth WEEKDAY_NAMES append] in Heq;
    first [ discriminate Heq | apply Hne; rewrite E1, E2; reflexivity ].
Qed.

Lemma LocalTime_setHoursZero : forall h now,
  LocalTime h (setHoursZero h now) = Day (LocalTime h now) * msPerDay.
Proof.
  intros h now. unfold setHoursZero, UTC, LocalTime, MakeDate. lia.
Qed.

Lemma Day_mul : forall d, Day (d * msPerDay) = d.
Proof.
  intros d. unfold Day. apply Z.div_mul. discriminate.
Qed.

Lemma toDateString_today : forall h now,
  toDateString h (Some (setHoursZero h now)) = DateString (LocalTime h now).
Proof.
  intros h now. cbn [toDateString]. apply DateString_Day.
  now rewrite LocalTime_setHoursZero, Day_mul.
Qed.

(** What [nextWeek] is: the instant read from the clock, seven days on. *)
Lemma setDate_getDate : forall h now k,
  setDate h now (getDate h (setHoursZero h now) + k) = now + k * msPerDay.
Proof.
  intros h now k. unfold setDate, getDate.
  assert (Hd : DateFromTime (LocalTime h (setHoursZero h now)) = DateFromTime (LocalTime h now)).
  { unfold DateFromTime, DayWithinYear, YearFromTime.
    now rewrite LocalTime_setHoursZero, Day_mul. }
  rewrite Hd, MakeDay_of_parts. unfold MakeDate, UTC, TimeWithinDay, Day, LocalTime.
  pose proof (Z.div_mod (now + LocalTZA h) msPerDay). unfold msPerDay in *. lia.
Qed.

(** The 'week' branch, spelled out. *)
Lemma matchesDate_week : forall h now filters event,
  dateRange filters = dr_week ->
  matchesDate h now filters event = onWeekRange h now (newDate h (date event)).
Proof.
  intros h now filters event Hr. unfold matchesDate. rewrite Hr.
  cbv zeta. rewrite setDate_getDate. unfold onWeekRange, dateGe, dateLe.
  destruct (newDate h (date event)) as [tv|]; [|reflexivity].
  unfold setHoursZero, UTC, MakeDate. now rewrite Z.add_0_r.
Qed.

(** The 'today' branch, spelled out. *)
Lemma matchesDate_today : forall h now filters event,
  dateRange filters = dr_today ->
  matchesDate h now filters event =
  String.eqb (toDateString h (newDate h (date event))) (DateString (LocalTime h now)).
Proof.
  intros h now filters event Hr. unfold matchesDate. rewrite Hr.
  cbv zeta. now rewrite toDateString_today.
Qed.

(** West of UTC, whatever the instant: the event that sits at midnight
    UTC of the current local day fails 'today' and 'week', and the event
    of the day after passes 'today'. *)
Lemma west_today_event_fails_today : forall h now filters event,
  westOfUTC h -> dateRange filters = dr_today ->
  newDate h (date event) = Some (Day (LocalTime h now) * msPerDay) ->
  matchesDate h now filters event = false.
Proof.
  intros h now filters event Hw Hr Hd.
  rewrite (matchesDate_today _ _ _ _ Hr), Hd. cbn [toDateString].
  apply String.eqb_neq. apply DateString_weekday.
  unfold WeekDay, westOfUTC in *. 
  assert (E : Day (LocalTime h (Day (LocalTime h now) * msPerDay)) = Day (LocalTime h now) - 1).
  { unfold LocalTime at 1. generalize (Day (LocalTime h now)). intros T.
    unfold Day, msPerDay in *. Z.div_mod_to_equations. lia. }
  rewrite E. generalize (Day (LocalTime h now)). intros T.
  Z.div_mod_to_equations. lia.
Qed.

Lemma west_tomorrow_event_passes_today : forall h now filters event,
  westOfUTC h -> dateRange filters = dr_today ->
  newDate h (date event) = Some ((Day (LocalTime h now) + 1) * msPerDay) ->
  matchesDate h now filters event = true.
Proof.
  intros h now filters event Hw Hr Hd.
  rewrite (matchesDate_today _ _ _ _ Hr), Hd. cbn [toDateString].
  apply String.eqb_eq. apply DateString_Day.
  unfold westOfUTC in Hw. unfold LocalTime at 1.
  generalize (Day (LocalTime h now)). intros T.
  unfold Day, msPerDay in *. Z.div_mod_to_equations. lia.
Qed.

Lemma west_today_event_fails_week : forall h now filters event,
  LocalTZA h < 0 -> dateRange filters = dr_week ->
  newDate h (date event) = Some (Day (LocalTime h now) * msPerDay) ->
  matchesDate h now filters event = false.
Proof.
  intros h now filters event Hw Hr Hd.
  rewrite (matchesDate_week _ _ _ _ Hr), Hd. unfold onWeekRange.
  apply andb_false_iff. left. apply Z.leb_gt. lia.
Qed.

(** A date-only string names a midnight of UTC. *)
Lemma parseDateOnly_midnight : forall s tv,
  parseDateOnly s = Some tv -> TimeWithinDay tv = 0.
Proof.
  intros s tv H. unfold parseDateOnly in H.
  do 10 (destruct s as [|? s]; [discriminate H|]).
  destruct s; [|discriminate H].
  repeat match type of H with
         | (if ?b then _ else _) = _ => destruct b; [|discriminate H]
         end.
  injection H as <-. unfold MakeDate, TimeWithinDay.
  rewrite Z.add_0_r. apply Z.mod_mul. discriminate.
Qed.

(** At or east of UTC (by less than a day) the event of the current
    local day does pass 'today' and 'week'. *)
Lemma east_today_event_passes : forall h now filters event,
  0 <= LocalTZA h < msPerDay ->
  newDate h (date event) = Some (Day (LocalTime h now) * msPerDay) ->
  (dateRange filters = dr_today -> matchesDate h now filters event = true) /\
  (dateRange filters = dr_week -> matchesDate h now filters event = true).
Proof.
  intros h now filters event He Hd. split; intros Hr.
  - rewrite (matchesDate_today _ _ _ _ Hr), Hd. cbn [toDateString].
    apply String.eqb_eq. apply DateString_Day.
    unfold LocalTime at 1. generalize (Day (LocalTime h now)). intros T.
    unfold Day, msPerDay in *. Z.div_mod_to_equations. lia.
  - rewrite (matchesDate_week _ _ _ _ Hr), Hd. unfold onWeekRange.
    apply andb_true_iff. split; apply Z.leb_le; [lia|].
    unfold LocalTime, Day, msPerDay in *. Z.div_mod_to_equations. lia.
Qed.

(** C4 (fails on the code). A date-only string is read as midnight UTC
    but shown, like the clock, in local time.  On a host at UTC-7, at
    noon of Monday 10 June 2024, the event dated 2024-06-10 shows as
    "Sun Jun 09 2024" and fails 'today', while the event dated
    2024-06-11 shows as "Mon Jun 10 2024" and passes.  On a host at UTC
    the event dated 2024-06-10 passes. *)
Theorem today_filter_off_by_one_west_of_UTC :
  toDateString hostPDT (Some (setHoursZero hostPDT (localInstant hostPDT 2024 6 10 12 0)))
    = "Mon Jun 10 2024" /\
  toDateString hostPDT (newDate hostPDT (Val "2024-06-10")) = "Sun Jun 09 2024" /\
  toDateString hostPDT (newDate hostPDT (Val "2024-06-11")) = "Mon Jun 10 2024" /\
  matchesDate hostPDT (localInstant hostPDT 2024 6 10 12 0)
              (mkFilters dr_today "All" "") (eventDated "2024-06-10") = false /\
  matchesDate hostPDT (localInstant hostPDT 2024 6 10 12 0)
              (mkFilters dr_today "All" "") (eventDated "2024-06-11") = true /\
  filteredEvents hostPDT (localInstant hostPDT 2024 6 10 12 0) (mkFilters dr_today "All" "")
                 [eventDated "2024-06-10"; eventDated "2024-06-11"]
    = Normal [eventDated "2024-06-11"] /\
  matchesDate hostUTC (localInstant hostUTC 2024 6 10 12 0)
              (mkFilters dr_today "All" "") (eventDated "2024-06-10") = true.
Proof. repeat split; vm_compute; reflexivity. Qed.

(** C5 (fails on the code). The lower end of the 'week' window is local
    midnight and the upper end is the current instant plus seven days,
    while events sit at midnight UTC.  With the clock at 2024-06-10
    00:00 local time and events dated 06-09, 06-10, 06-17, 06-18:
    a host at UTC-7 leaves out the event of 06-10, the first day of the
    window; a host at UTC+5:30 leaves out the event of 06-17, the last
    day; a host at UTC keeps both.  At 18:00 local time the host at
    UTC-7 keeps the event of 06-18. *)
Theorem week_filter_window_shifted_by_zone :
  map (fun day => matchesDate hostPDT (localInstant hostPDT 2024 6 10 0 0)
                              (mkFilters dr_week "All" "") (eventDated day))
      ["2024-06-09"; "2024-06-10"; "2024-06-17"; "2024-06-18"]
    = [false; false; true; false] /\
  map (fun day => matchesDate hostIST (localInstant hostIST 2024 6 10 0 0)
                              (mkFilters dr_week "All" "") (eventDated day))
      ["2024-06-09"; "2024-06-10"; "2024-06-17"; "2024-06-18"]
    = [false; true; false; false] /\
  map (fun day => matchesDate hostUTC (localInstant hostUTC 2024 6 10 0 0)
                              (mkFilters dr_week "All" "") (eventDated day))
      ["2024-06-09"; "2024-06-10"; "2024-06-17"; "2024-06-18"]
    = [false; true; true; false] /\
  matchesDate hostPDT (localInstant hostPDT 2024 6 10 18 0)
              (mkFilters dr_week "All" "") (eventDated "2024-06-18") = true /\
  filteredEvents hostPDT (localInstant hostPDT 2024 6 10 0 0) (mkFilters dr_week "All" "")
                 [eventDated "2024-06-10"; eventDated "2024-06-17"]
    = Normal [eventDated "2024-06-17"].
Proof. repeat split; vm_compute; reflexivity. Qed.

(** The bounds of the 'week' window in the three hosts, in milliseconds
    since the epoch: local midnight, and seven days after the instant
    read from the clock. *)
Example week_window_bounds :
  setHoursZero hostPDT (localInstant hostPDT 2024 6 10 18 0)
    = localInstant hostPDT 2024 6 10 0 0 /\
  setDate hostPDT (localInstant hostPDT 2024 6 10 18 0)
          (getDate hostPDT (setHoursZero hostPDT (localInstant hostPDT 2024 6 10 18 0)) + 7)
    = localInstant hostPDT 2024 6 17 18 0 /\
  setDate hostPDT (localInstant hostPDT 2024 6 28 9 0)
          (getDate hostPDT (setHoursZero hostPDT (localInstant hostPDT 2024 6 28 9 0)) + 7)
    = localInstant hostPDT 2024 7 5 9 0 /\
  newDate hostPDT (Val "2024-06-10") = Some (localInstant hostUTC 2024 6 10 0 0).
Proof. repeat split; vm_compute; reflexivity. Qed.

(* ------------------------------------------------------------------ *)
(** ** The filter pipeline *)

Lemma isHomeGame_throws : forall event,
  throws (isHomeGame event) = true <->
  isSportsEvent event = true /\ (location event = Undefined \/ location event = Null).
Proof.
  intros event. unfold isHomeGame.
  destruct (isSportsEvent event); cbn [negb].
  - destruct (location event) as [| |loc]; cbn [throws].
    + split; [intros _; split; [reflexivity | now left] | reflexivity].
    + split; [intros _; split; [reflexivity | now right] | reflexivity].
    + split; [discriminate | intros [_ [H | H]]; discriminate].
  - cbn [throws]. split; [discriminate | intros [H _]; discriminate].
Qed.

Lemma matchesSearch_throws : forall filters event,
  throws (matchesSearch filters event) = true <->
  trim (searchQuery filters) <> EmptyString /\
  (trim (toLowerCase (trim (searchQuery filters))) = "constructor" \/
   trim (toLowerCase (trim (searchQuery filters))) = "__proto__").
Proof.
  intros filters event. unfold matchesSearch.
  destruct (String.eqb (trim (searchQuery filters)) EmptyString) eqn:E.
  - apply String.eqb_eq in E. cbn [throws]. split; [discriminate | intros [H _]; contradiction].
  - apply String.eqb_neq in E.
    pose proof (expandSearchQuery_throws (trim (searchQuery filters))) as Ht.
    destruct (expandSearchQuery (trim (searchQuery filters))) as [terms|[]]; cbn [bind throws].
    + split; [discriminate|]. intros [_ H]. apply Ht in H. discriminate.
    + split; [|reflexivity]. intros _. split; [exact E | now apply Ht].
Qed.

Lemma keepEvent_normal : forall h now filters event,
  throws (keepEvent h now filters event) = false ->
  keepEvent h now filters event =
  Normal (matchesCategory filters event && matchesDate h now filters event
          && searchPasses filters event && localPasses event)%bool.
Proof.
  intros h now filters event. unfold keepEvent, searchPasses, localPasses.
  destruct (matchesSearch filters event) as [s|]; cbn [bind throws]; [|discriminate].
  destruct (isHomeGame event) as [l|]; cbn [bind throws]; [|discriminate].
  reflexivity.
Qed.

(** Where no event makes the callback throw, the pipeline is a filter:
    it returns, in the order of the batch, exactly the events on which
    the four predicates hold; an empty trimmed query passes every
    event. *)
Theorem filteredEvents_is_filter : forall h now filters allEvents,
  (forall e, In e allEvents -> throws (keepEvent h now filters e) = false) ->
  filteredEvents h now filters allEvents =
    Normal (filter (fun e => matchesCategory filters e && matchesDate h now filters e
                             && searchPasses filters e && localPasses e)%bool
                   allEvents) /\
  (trim (searchQuery filters) = EmptyString ->
   forall e, searchPasses filters e = true).
Proof.
  intros h now filters allEvents H. split.
  - unfold filteredEvents. apply arrayFilter_filter.
    intros e He. apply keepEvent_normal. now apply H.
  - intros Hq e. unfold searchPasses, matchesSearch. rewrite Hq. reflexivity.
Qed.

(** A batch in which every event has all its fields never throws under
    a query other than the two inherited names. *)
Lemma keepEvent_total : forall h now filters event,
  trim (toLowerCase (trim (searchQuery filters))) <> "constructor" ->
  trim (toLowerCase (trim (searchQuery filters))) <> "__proto__" ->
  (isSportsEvent event = true -> exists loc, location event = Val loc) ->
  throws (keepEvent h now filters event) = false.
Proof.
  intros h now filters event H1 H2 Hloc.
  rewrite keepEvent_throws. apply orb_false_iff. split.
  - destruct (throws (matchesSearch filters event)) eqn:E; [|reflexivity].
    apply matchesSearch_throws in E as [_ [E | E]]; contradiction.
  - destruct (throws (isHomeGame event)) eqn:E; [|reflexivity].
    apply isHomeGame_throws in E as [Hs Hl]. destruct (Hloc Hs) as [loc Hv].
    rewrite Hv in Hl. destruct Hl; discriminate.
Qed.

(** C1 (fails on the code). With the search box holding "constructor"
    (or "__proto__"), the filter pass over any batch that is not empty
    ends in a TypeError instead of returning the events on which the
    four predicates hold: the lookup [SEARCH_SYNONYMS[normalized]] finds
    the property inherited from [Object.prototype], which is truthy, and
    spreading it into [push] throws. *)
Theorem filteredEvents_inherited_name_query : forall h now range cat event rest,
  filteredEvents h now (mkFilters range cat "constructor") (event :: rest) = Throw TypeError /\
  filteredEvents h now (mkFilters range cat "__proto__") (event :: rest) = Throw TypeError /\
  filteredEvents h now (mkFilters range cat " Constructor ") (event :: rest) = Throw TypeError.
Proof.
  intros h now range cat event rest. repeat split; reflexivity.
Qed.

(** C2 (fails on the code). A sports-tagged event whose [location] is
    [null] makes the filter pass over any batch that holds it end in a
    TypeError, whatever the filter state, the host and the instant. *)
Theorem filteredEvents_null_location_throws : forall h now filters before after,
  filteredEvents h now filters (before ++ sportsNoLocation :: after) = Throw TypeError.
Proof.
  intros h now filters before after.
  assert (Hk : keepEvent h now filters sportsNoLocation = Throw TypeError).
  { unfold keepEvent. destruct (matchesSearch filters sportsNoLocation) as [s|[]]; reflexivity. }
  destruct (arrayFilter_throw _ (keepEvent h now filters) (before ++ sportsNoLocation :: after)
              sportsNoLocation TypeError) as [[] He]; [|exact Hk|exact He].
  apply in_app_iff. right. now left.
Qed.

(** The other absent fields are survived: with [title] and [tags]
    missing and [location: null] the event is not taken for a sports
    event, passes the locality check, matches no query and no category
    but 'All'. *)
Example missing_fields_degrade :
  isHomeGame noTagsNoLocation = Normal true /\
  searchableText noTagsNoLocation = " conference game cal athletics" /\
  matchesCategory (mkFilters dr_upcoming "Sports" "") noTagsNoLocation = false /\
  filteredEvents hostPDT (localInstant hostPDT 2024 6 10 12 0)
                 (mkFilters dr_upcoming "All" "") [noTagsNoLocation; homeGame]
    = Normal [noTagsNoLocation; homeGame] /\
  filteredEvents hostPDT (localInstant hostPDT 2024 6 10 12 0)
                 (mkFilters dr_upcoming "All" "") [sportsNoLocation; homeGame]
    = Throw TypeError.
Proof. repeat split; vm_compute; reflexivity. Qed.

(** The end-to-end scenario of the specification: of an away game, an
    AI lecture and an arts event, the query "ai" keeps the lecture. *)
Example end_to_end :
  filteredEvents hostPDT (localInstant hostPDT 2024 6 10 12 0)
    (mkFilters dr_upcoming "All" "ai")
    [ mkEvent "Cal at Stanford" "Road game" "Cal Athletics" "2024-06-05" "Stanford, CA" ["Sports"];
      mkEvent "AI Policy Lecture" "Guest lecture" "Goldman School" "2024-06-11" "Berkeley, CA" ["Academic"];
      mkEvent "Print Show" "Opening night" "BAMPFA" "2024-06-09" "Berkeley, CA" ["Arts"] ]
  = Normal [ mkEvent "AI Policy Lecture" "Guest lecture" "Goldman School" "2024-06-11"
                     "Berkeley, CA" ["Academic"] ].
Proof. vm_compute. reflexivity. Qed.

(* ================================================================== *)
(** * Further properties of the filter *)

(* ------------------------------------------------------------------ *)
(** ** The category filter *)

Lemma includes_refl : forall s, includes s s = true.
Proof.
  intros s. apply includes_app. exists EmptyString, EmptyString.
  simpl. clear. induction s as [|c s IH]; simpl; [reflexivity | now rewrite <- IH].
Qed.

(** X1. The category filter passes an event exactly when the category
    is 'All' or some tag of the event contains the category, letter
    case set aside; the test for a tag equal to the category never
    changes the verdict, and an event without tags passes under 'All'
    only. *)
Theorem matchesCategory_loose : forall filters event,
  matchesCategory filters event = true <->
  category filters = "All" \/
  exists ts tag,
    tags event = Val ts /\ In tag ts /\
    occursIn (toLowerCase (category filters)) (toLowerCase tag).
Proof.
  intros filters event. unfold matchesCategory.
  rewrite orb_true_iff, String.eqb_eq.
  destruct (tags event) as [| |ts].
  - split; [intros [H | H]; [now left | discriminate]
           | intros [H | (ts & tag & H & _)]; [now left | discriminate]].
  - split; [intros [H | H]; [now left | discriminate]
           | intros [H | (ts & tag & H & _)]; [now left | discriminate]].
  - rewrite orb_true_iff,
      (existsb_includes_occursIn toLowerCase (toLowerCase (category filters)) ts),
      arrayIncludes_In.
    split.
    + intros [H | [[tag [Hin H]] | Hin]].
      * now left.
      * right. exists ts, tag. auto.
      * right. exists ts, (category filters). split; [reflexivity|]. split; [exact Hin|].
        apply includes_app, includes_refl.
    + intros [H | (ts' & tag & [= <-] & Hin & H)].
      * now left.
      * right. left. exists tag. auto.
Qed.

(* ------------------------------------------------------------------ *)
(** ** When the filter pass throws, and what it returns when it does not *)

Lemma arrayFilter_throws : forall (A : Type) (f : A -> Completion bool) l,
  throws (arrayFilter f l) = existsb (fun x => throws (f x)) l.
Proof.
  intros A f. induction l as [|x l IH]; [reflexivity|].
  cbn [arrayFilter existsb]. destruct (f x) as [b|err]; cbn [bind throws]; [|reflexivity].
  rewrite <- IH. destruct (arrayFilter f l); reflexivity.
Qed.

(** X2. The filter pass throws exactly when the batch holds an event on
    which the callback throws: any event at all when the trimmed query
    is not empty and normalizes to "constructor" or "__proto__", or a
    sports-tagged event whose location is missing or null.  On an empty
    batch it never throws. *)
Theorem filteredEvents_throws_iff : forall h now filters allEvents,
  throws (filteredEvents h now filters allEvents) = true <->
  exists event,
    In event allEvents /\
    ((trim (searchQuery filters) <> EmptyString /\
      (trim (toLowerCase (trim (searchQuery filters))) = "constructor" \/
       trim (toLowerCase (trim (searchQuery filters))) = "__proto__")) \/
     (sportsTagged event /\ (location event = Undefined \/ location event = Null))).
Proof.
  intros h now filters allEvents. unfold filteredEvents.
  rewrite arrayFilter_throws, existsb_exists.
  split; intros [event [Hin H]]; exists event; (split; [exact Hin|]).
  - rewrite keepEvent_throws in H. apply orb_true_iff in H as [H | H].
    + left. now apply matchesSearch_throws in H.
    + right. apply isHomeGame_throws in H as [Hs Hl].
      split; [now apply isSportsEvent_sportsTagged | exact Hl].
  - rewrite keepEvent_throws. apply orb_true_iff. destruct H as [H | [Hs Hl]].
    + left. now apply matchesSearch_throws.
    + right. apply isHomeGame_throws.
      split; [now apply isSportsEvent_sportsTagged | exact Hl].
Qed.

Lemma arrayFilter_normal : forall (A : Type) (f : A -> Completion bool) l out,
  arrayFilter f l = Normal out ->
  (forall x, In x l -> exists b, f x = Normal b) /\
  (forall x, In x out -> f x = Normal true) /\
  (forall g : A -> bool, (forall x, In x l -> f x = Normal (g x)) -> out = filter g l).
Proof.
  intros A f. induction l as [|x l IH]; intros out H.
  - injection H as <-. split; [|split]; intros; try contradiction; reflexivity.
  - cbn [arrayFilter] in H. destruct (f x) as [b|err] eqn:Ex; cbn [bind] in H; [|discriminate].
    destruct (arrayFilter f l) as [kept|err] eqn:El; cbn [bind] in H; [|discriminate].
    injection H as <-. destruct (IH kept eq_refl) as (H1 & H2 & H3).
    split; [|split].
    + intros y [<- | Hy]; [now exists b | now apply H1].
    + intros y Hy. destruct b; [destruct Hy as [<- | Hy]; [exact Ex | now apply H2]
                               | now apply H2].
    + intros g Hg. cbn [filter].
      assert (Eg : g x = b).
      { specialize (Hg x (or_introl eq_refl)). rewrite Ex in Hg. now injection Hg. }
      rewrite Eg, (H3 g) by (intros y Hy; apply Hg; now right).
      reflexivity.
Qed.

Lemma filter_all : forall (A : Type) (g : A -> bool) (l : list A),
  (forall x, In x l -> g x = true) -> filter g l = l.
Proof.
  intros A g. induction l as [|x l IH]; intros H; [reflexivity|].
  cbn [filter]. rewrite (H x (or_introl eq_refl)), IH; [reflexivity|].
  intros y Hy. apply H. now right.
Qed.

(** X3. Filtering is idempotent: what a pass returns is returned
    unchanged by a second pass with the same filter state at the same
    instant. *)
Theorem filteredEvents_idempotent : forall h now filters allEvents shown,
  filteredEvents h now filters allEvents = Normal shown ->
  filteredEvents h now filters shown = Normal shown.
Proof.
  intros h now filters allEvents shown H. unfold filteredEvents in *.
  destruct (arrayFilter_normal _ _ _ _ H) as (_ & Hkept & _).
  rewrite (arrayFilter_filter _ _ (fun _ => true) shown) by exact Hkept.
  f_equal. now apply filter_all.
Qed.

Lemma filteredEvents_idempotent_witness :
  filteredEvents hostPDT (localInstant hostPDT 2024 6 10 12 0) (mkFilters dr_week "All" "ai")
                 [awayGame; aiEthicsTalk; trainingEvent; deepLearningEvent]
    = Normal [aiEthicsTalk; deepLearningEvent] /\
  filteredEvents hostPDT (localInstant hostPDT 2024 6 10 12 0) (mkFilters dr_week "All" "ai")
                 [aiEthicsTalk; deepLearningEvent]
    = Normal [aiEthicsTalk; deepLearningEvent].
Proof.
  split; [reflexivity|].
  exact (filteredEvents_idempotent hostPDT (localInstant hostPDT 2024 6 10 12 0)
           (mkFilters dr_week "All" "ai")
           [awayGame; aiEthicsTalk; trainingEvent; deepLearningEvent]
           [aiEthicsTalk; deepLearningEvent] eq_refl).
Defined.

Lemma filter_filter : forall (A : Type) (p q : A -> bool) (l : list A),
  filter p (filter q l) = filter (fun x => q x && p x)%bool l.
Proof.
  intros A p q. induction l as [|x l IH]; [reflexivity|].
  cbn [filter]. destruct (q x); cbn [filter andb]; [destruct (p x)|]; now rewrite IH.
Qed.

(** X4. Category and date range only narrow a result.  Whatever a pass
    returns is what the pass for the same query with category 'All' and
    range 'upcoming' returns, filtered further by the category and the
    date predicates, in the same order. *)
Theorem filteredEvents_narrows_unrestricted_pass : forall h now filters allEvents shown,
  filteredEvents h now filters allEvents = Normal shown ->
  exists wide,
    filteredEvents h now (mkFilters dr_upcoming "All" (searchQuery filters)) allEvents
      = Normal wide /\
    shown = filter (fun e => matchesCategory filters e && matchesDate h now filters e)%bool
                   wide.
Proof.
  intros h now filters allEvents shown H. unfold filteredEvents in *.
  destruct (arrayFilter_normal _ _ _ _ H) as (Hret & _ & Hout).
  assert (Hnt : forall e, In e allEvents -> throws (keepEvent h now filters e) = false).
  { intros e He. destruct (Hret e He) as [b ->]. reflexivity. }
  exists (filter (fun e => searchPasses filters e && localPasses e)%bool allEvents). split.
  - apply arrayFilter_filter. intros e He.
    assert (Hw : throws (keepEvent h now (mkFilters dr_upcoming "All" (searchQuery filters)) e)
                 = false).
    { rewrite keepEvent_throws. rewrite <- (Hnt e He), keepEvent_throws. reflexivity. }
    rewrite (keepEvent_normal _ _ _ _ Hw). reflexivity.
  - rewrite filter_filter.
    rewrite (Hout (fun e => matchesCategory filters e && matchesDate h now filters e
                            && searchPasses filters e && localPasses e)%bool)
      by (intros e He; apply keepEvent_normal; now apply Hnt).
    apply filter_ext. intros e.
    destruct (matchesCategory filters e), (matchesDate h now filters e),
             (searchPasses filters e), (localPasses e); reflexivity.
Qed.

Lemma filteredEvents_narrows_unrestricted_pass_witness :
  filteredEvents hostPDT (localInstant hostPDT 2024 6 10 12 0) (mkFilters dr_week "Arts" "")
                 [awayGame; undatedEvent; homeGame] = Normal [] /\
  exists wide,
    filteredEvents hostPDT (localInstant hostPDT 2024 6 10 12 0) (mkFilters dr_upcoming "All" "")
                   [awayGame; undatedEvent; homeGame] = Normal wide /\
    [] = filter (fun e => matchesCategory (mkFilters dr_week "Arts" "") e
                          && matchesDate hostPDT (localInstant hostPDT 2024 6 10 12 0)
                                         (mkFilters dr_week "Arts" "") e)%bool
                wide.
Proof.
  split; [reflexivity|].
  exact (filteredEvents_narrows_unrestricted_pass hostPDT (localInstant hostPDT 2024 6 10 12 0)
           (mkFilters dr_week "Arts" "") [awayGame; undatedEvent; homeGame] [] eq_refl).
Defined.

Lemma localPasses_iff : forall event,
  localPasses event = true <->
  isHomeGame event = Normal true.
Proof.
  intros event. unfold localPasses.
  destruct (isHomeGame event) as [[|]|err]; split; congruence.
Qed.

(** X5. With the filter state the page starts with, and returns to on
    "Clear all filters" (range 'upcoming', category 'All', empty query),
    a batch whose sports-tagged events all have a location is shown in
    full and in order except for the away games: the sports-tagged
    events whose location names no Berkeley venue. *)
Theorem default_filters_hide_only_away_games : forall h now allEvents,
  (forall e, In e allEvents -> sportsTagged e -> exists loc, location e = Val loc) ->
  filteredEvents h now (mkFilters dr_upcoming "All" "") allEvents
    = Normal (filter localPasses allEvents) /\
  (forall e, localPasses e = true <-> isHomeGame e = Normal true) /\
  (forall e, In e allEvents ->
     (In e (filter localPasses allEvents) <-> ~ sportsTagged e \/ atBerkeley e)).
Proof.
  intros h now allEvents Hloc. split; [|split].
  - unfold filteredEvents. apply arrayFilter_filter. intros e He.
    rewrite keepEvent_normal.
    + reflexivity.
    + apply keepEvent_total; cbn [searchQuery mkFilters]; try discriminate.
      intros Hs. apply (Hloc e He). now apply isSportsEvent_sportsTagged.
  - exact localPasses_iff.
  - intros e He. rewrite filter_In, localPasses_iff.
    pose proof (isSportsEvent_sportsTagged e) as Hst.
    unfold isHomeGame. destruct (isSportsEvent e) eqn:Es; cbn [negb].
    + assert (Hs : sportsTagged e) by now apply Hst.
      destruct (Hloc e He Hs) as [loc Hl]. rewrite Hl.
      pose proof (existsb_includes_in_text (toLowerCase loc) BERKELEY_LOCATIONS) as Hex.
      cbv zeta. set (b := existsb _ BERKELEY_LOCATIONS) in *. clearbody b.
      split.
      * intros [_ [= Hb]]. right. apply Hex in Hb as [place [Hin Hp]].
        exists loc, place. auto.
      * intros [Hn | (loc' & place & Hl' & Hin & Hp)]; [contradiction|].
        split; [exact He|]. f_equal. apply Hex. exists place.
        rewrite Hl in Hl'. injection Hl' as <-. auto.
    + split; [|intros _; now split].
      intros _. left. intros Hs. apply Hst in Hs. discriminate.
Qed.

Lemma default_filters_hide_only_away_games_witness :
  (forall e, In e [awayGame; noTagsNoLocation; homeGame] -> sportsTagged e ->
             exists loc, location e = Val loc) /\
  filteredEvents hostPDT (localInstant hostPDT 2024 6 10 12 0) (mkFilters dr_upcoming "All" "")
                 [awayGame; noTagsNoLocation; homeGame]
    = Normal (filter localPasses [awayGame; noTagsNoLocation; homeGame]) /\
  filter localPasses [awayGame; noTagsNoLocation; homeGame] = [noTagsNoLocation; homeGame].
Proof.
  assert (H : forall e, In e [awayGame; noTagsNoLocation; homeGame] -> sportsTagged e ->
                        exists loc, location e = Val loc).
  { intros e [<- | [<- | [<- | []]]] Hs.
    - eexists; reflexivity.
    - apply isSportsEvent_sportsTagged in Hs. discriminate Hs.
    - eexists; reflexivity. }
  split; [exact H | split; [|reflexivity]].
  exact (proj1 (default_filters_hide_only_away_games hostPDT
                  (localInstant hostPDT 2024 6 10 12 0) _ H)).
Defined.

(* ------------------------------------------------------------------ *)
(** ** How the search box is read *)

Lemma isWhiteSpace_toLowerChar : forall c, isWhiteSpace (toLowerChar c) = isWhiteSpace c.
Proof.
  intros c. apply Bool.eqb_prop.
  revert c. apply (ascii_forallb (fun c => Bool.eqb (isWhiteSpace (toLowerChar c)) (isWhiteSpace c))).
  vm_compute. reflexivity.
Qed.

Lemma toLowerCase_trimStart : forall s, toLowerCase (trimStart s) = trimStart (toLowerCase s).
Proof.
  unfold toLowerCase. induction s as [|c s IH]; [reflexivity|].
  cbn [trimStart map_string]. rewrite isWhiteSpace_toLowerChar.
  destruct (isWhiteSpace c); [exact IH | reflexivity].
Qed.

Lemma trimEnd_cons : forall c s,
  trimEnd (String c s) =
  match trimEnd s with
  | EmptyString => if isWhiteSpace c then EmptyString else String c EmptyString
  | r => String c r
  end.
Proof. reflexivity. Qed.

Lemma toLowerCase_trimEnd : forall s, toLowerCase (trimEnd s) = trimEnd (toLowerCase s).
Proof.
  unfold toLowerCase. induction s as [|c s IH]; [reflexivity|].
  cbn [map_string]. rewrite !trimEnd_cons, <- IH, isWhiteSpace_toLowerChar.
  destruct (trimEnd s) as [|d r]; cbn [map_string]; [|reflexivity].
  destruct (isWhiteSpace c); reflexivity.
Qed.

Lemma toLowerCase_trim : forall s, toLowerCase (trim s) = trim (toLowerCase s).
Proof.
  intros s. unfold trim. now rewrite toLowerCase_trimEnd, toLowerCase_trimStart.
Qed.

Lemma trimEnd_idempotent : forall s, trimEnd (trimEnd s) = trimEnd s.
Proof.
  induction s as [|c s IH]; [reflexivity|].
  rewrite trimEnd_cons. destruct (trimEnd s) as [|d r] eqn:E.
  - destruct (isWhiteSpace c) eqn:Ec; [reflexivity|].
    rewrite trimEnd_cons. cbn [trimEnd]. now rewrite Ec.
  - rewrite trimEnd_cons, IH. reflexivity.
Qed.

Lemma trimStart_head : forall s,
  trimStart s = EmptyString \/
  exists c r, trimStart s = String c r /\ isWhiteSpace c = false.
Proof.
  induction s as [|c s IH]; [now left|].
  cbn [trimStart]. destruct (isWhiteSpace c) eqn:E; [exact IH|].
  right. now exists c, s.
Qed.

Lemma trimStart_trimEnd : forall c r,
  isWhiteSpace c = false -> trimStart (trimEnd (String c r)) = trimEnd (String c r).
Proof.
  intros c r Hc. rewrite trimEnd_cons.
  destruct (trimEnd r); rewrite ?Hc; cbn [trimStart]; now rewrite Hc.
Qed.

Lemma trim_idempotent : forall s, trim (trim s) = trim s.
Proof.
  intros s. unfold trim.
  destruct (trimStart_head s) as [-> | (c & r & -> & Hc)]; [reflexivity|].
  now rewrite (trimStart_trimEnd c r Hc), trimEnd_idempotent.
Qed.

Lemma toLowerCase_empty : forall s, toLowerCase s = EmptyString <-> s = EmptyString.
Proof.
  intros [|c s]; split; intros H; try reflexivity; discriminate.
Qed.

(** The query enters the search only through its normalized form. *)
Lemma normalized_of_trimmed : forall q,
  trim (toLowerCase (trim q)) = trim (toLowerCase q).
Proof.
  intros q. now rewrite toLowerCase_trim, trim_idempotent.
Qed.

Lemma expandSearchQuery_normalized : forall q1 q2,
  trim (toLowerCase q1) = trim (toLowerCase q2) ->
  expandSearchQuery q1 = expandSearchQuery q2.
Proof.
  intros q1 q2 H. unfold expandSearchQuery. now rewrite H.
Qed.

Lemma trimmed_empty : forall q,
  trim q = EmptyString <-> trim (toLowerCase q) = EmptyString.
Proof.
  intros q. rewrite <- toLowerCase_trim. symmetry. apply toLowerCase_empty.
Qed.

Lemma matchesSearch_normalized : forall range1 cat1 range2 cat2 q1 q2 event,
  trim (toLowerCase q1) = trim (toLowerCase q2) ->
  matchesSearch (mkFilters range1 cat1 q1) event = matchesSearch (mkFilters range2 cat2 q2) event.
Proof.
  intros range1 cat1 range2 cat2 q1 q2 event H. unfold matchesSearch.
  cbn [searchQuery mkFilters].
  assert (He : String.eqb (trim q1) EmptyString = String.eqb (trim q2) EmptyString).
  { destruct (String.eqb_spec (trim q1) EmptyString) as [E1 | E1];
      destruct (String.eqb_spec (trim q2) EmptyString) as [E2 | E2]; try reflexivity.
    - apply trimmed_empty in E1. rewrite H in E1. apply trimmed_empty in E1. contradiction.
    - apply trimmed_empty in E2. rewrite <- H in E2. apply trimmed_empty in E2. contradiction. }
  rewrite He. destruct (String.eqb (trim q2) EmptyString); [reflexivity|].
  rewrite (expandSearchQuery_normalized (trim q1) (trim q2)); [reflexivity|].
  now rewrite !normalized_of_trimmed.
Qed.

(** X6. The search box is read without regard to letter case and to
    white space around the text: two queries with the same lower-cased,
    trimmed form give the same filter pass, thrown exception included. *)
Theorem search_ignores_case_and_padding : forall h now range cat q1 q2 allEvents,
  trim (toLowerCase q1) = trim (toLowerCase q2) ->
  filteredEvents h now (mkFilters range cat q1) allEvents =
  filteredEvents h now (mkFilters range cat q2) allEvents.
Proof.
  intros h now range cat q1 q2 allEvents H. unfold filteredEvents.
  apply arrayFilter_ext. intros e. unfold keepEvent.
  now rewrite (matchesSearch_normalized range cat range cat q1 q2 e H).
Qed.

Lemma search_ignores_case_and_padding_witness :
  trim (toLowerCase "  Machine LEARNING ") = trim (toLowerCase "machine learning") /\
  filteredEvents hostPDT (localInstant hostPDT 2024 6 10 12 0)
                 (mkFilters dr_upcoming "All" "  Machine LEARNING ")
                 [trainingEvent; deepLearningEvent] =
  filteredEvents hostPDT (localInstant hostPDT 2024 6 10 12 0)
                 (mkFilters dr_upcoming "All" "machine learning")
                 [trainingEvent; deepLearningEvent].
Proof.
  split; [reflexivity|].
  exact (search_ignores_case_and_padding hostPDT (localInstant hostPDT 2024 6 10 12 0)
           dr_upcoming "All" "  Machine LEARNING " "machine learning"
           [trainingEvent; deepLearningEvent] eq_refl).
Defined.

(** X7. Synonym expansion only widens a search.  When the normalized
    query is not empty and is not one of the two inherited names, an
    event that the normalized query matches by itself (as a whole word
    for a short token, as a substring otherwise) passes the search
    filter. *)
Theorem literal_match_survives_expansion : forall filters event,
  trim (toLowerCase (searchQuery filters)) <> EmptyString ->
  trim (toLowerCase (searchQuery filters)) <> "constructor" ->
  trim (toLowerCase (searchQuery filters)) <> "__proto__" ->
  termMatches (searchableText event) (trim (toLowerCase (searchQuery filters))) = true ->
  matchesSearch filters event = Normal true.
Proof.
  intros filters event Hne H1 H2 Hm. unfold matchesSearch.
  destruct (String.eqb_spec (trim (searchQuery filters)) EmptyString) as [E | E].
  - apply trimmed_empty in E. contradiction.
  - rewrite <- (normalized_of_trimmed (searchQuery filters)) in H1, H2, Hm.
    destruct (expandSearchQuery_returns _ H1 H2) as [own [_ ->]]. cbn [bind]. f_equal.
    unfold eventMatchesSearch. apply existsb_exists.
    exists (trim (toLowerCase (trim (searchQuery filters)))). split; [|exact Hm].
    apply dedup_In, pushMatching_In. left. now left.
Qed.

Lemma literal_match_survives_expansion_witness :
  trim (toLowerCase (searchQuery (mkFilters dr_upcoming "All" " Seminar "))) <> EmptyString /\
  termMatches (searchableText deepLearningEvent)
              (trim (toLowerCase (searchQuery (mkFilters dr_upcoming "All" " Seminar ")))) = true /\
  matchesSearch (mkFilters dr_upcoming "All" " Seminar ") deepLearningEvent = Normal true.
Proof.
  assert (Hne : trim (toLowerCase (searchQuery (mkFilters dr_upcoming "All" " Seminar ")))
                <> EmptyString) by discriminate.
  split; [exact Hne | split; [reflexivity|]].
  apply (literal_match_survives_expansion (mkFilters dr_upcoming "All" " Seminar ")
           deepLearningEvent Hne); [discriminate | discriminate | reflexivity].
Defined.

(* ------------------------------------------------------------------ *)
(** ** The date filter, exactly *)

























(* ------------------------------------------------------------------ *)
(** ** Loading the snapshot *)

Lemma withUrl_fields : forall event u,
  id (withUrl event u) = id event /\ title (withUrl event u) = title event /\
  organizer (withUrl event u) = organizer event /\ date (withUrl event u) = date event /\
  time (withUrl event u) = time event /\ location (withUrl event u) = location event /\
  description (withUrl event u) = description event /\ tags (withUrl event u) = tags event.
Proof. intros event u. repeat split. Qed.

Lemma fixSportsUrl_fields : forall event,
  id (fixSportsUrl event) = id event /\ title (fixSportsUrl event) = title event /\
  organizer (fixSportsUrl event) = organizer event /\ date (fixSportsUrl event) = date event /\
  time (fixSportsUrl event) = time event /\ location (fixSportsUrl event) = location event /\
  description (fixSportsUrl event) = description event /\ tags (fixSportsUrl event) = tags event.
Proof.
  intros event. unfold fixSportsUrl.
  destruct (serviceIsSportsEvent event); [apply withUrl_fields | repeat split].
Qed.

Lemma isSportsEvent_service : forall event,
  isSportsEvent event = true -> serviceIsSportsEvent event = true.
Proof.
  intros event. unfold isSportsEvent, serviceIsSportsEvent.
  destruct (tags event) as [| |ts]; try discriminate.
  rewrite !existsb_exists. intros [tag [Hin H]]. exists tag. split; [exact Hin|].
  unfold tagNamesSports. now rewrite H.
Qed.

(** X10. Loading rewrites links and nothing else.  The loaded batch has
    one event per event of the snapshot, in the same order, each with
    every field but [url] as in the snapshot; a missing [events] array
    loads as the empty batch.  Every event that the locality heuristic
    of the filter takes for a sports event carries the Cal Bears tickets
    link after loading, and an event none of whose tags names sports
    ("sport", "athletics" or "cal bears", in any letter case) is loaded
    unchanged.  Loading an already loaded batch changes nothing. *)
Theorem loadedEvents_rewrites_sports_links : forall dataEvents,
  List.length (loadedEvents dataEvents) = List.length (orEmptyArray dataEvents) /\
  (forall i event,
     nth_error (orEmptyArray dataEvents) i = Some event ->
     exists loaded,
       nth_error (loadedEvents dataEvents) i = Some loaded /\
       id loaded = id event /\ title loaded = title event /\
       organizer loaded = organizer event /\ date loaded = date event /\
       time loaded = time event /\ location loaded = location event /\
       description loaded = description event /\ tags loaded = tags event /\
       (sportsTagged event -> url loaded = Val CALBEARS_TICKETS_URL) /\
       (serviceIsSportsEvent event = false -> loaded = event)) /\
  loadedEvents (Val (loadedEvents dataEvents)) = loadedEvents dataEvents.
Proof.
  intros dataEvents. unfold loadedEvents. split; [apply length_map | split].
  - intros i event Hi. exists (fixSportsUrl event).
    split; [now apply map_nth_error|].
    destruct (fixSportsUrl_fields event) as (H1 & H2 & H3 & H4 & H5 & H6 & H7 & H8).
    repeat (split; [assumption|]). split.
    + intros Hs. apply isSportsEvent_sportsTagged, isSportsEvent_service in Hs.
      unfold fixSportsUrl. now rewrite Hs.
    + intros Hs. unfold fixSportsUrl. now rewrite Hs.
  - cbn [orEmptyArray]. rewrite map_map. apply map_ext. intros e.
    unfold fixSportsUrl at 1.
    assert (Hs : serviceIsSportsEvent (fixSportsUrl e) = serviceIsSportsEvent e).
    { unfold serviceIsSportsEvent.
      now rewrite (proj2 (proj2 (proj2 (proj2 (proj2 (proj2 (proj2
                     (fixSportsUrl_fields e)))))))). }
    rewrite Hs. unfold fixSportsUrl.
    destruct (serviceIsSportsEvent e); reflexivity.
Qed.

Lemma loadedEvents_rewrites_sports_links_witness :
  nth_error (orEmptyArray (Val [aiEthicsTalk; awayGame])) 1 = Some awayGame /\
  sportsTagged awayGame /\
  loadedEvents (Val [aiEthicsTalk; awayGame])
    = [aiEthicsTalk; withUrl awayGame CALBEARS_TICKETS_URL] /\
  exists loaded,
    nth_error (loadedEvents (Val [aiEthicsTalk; awayGame])) 1 = Some loaded /\
    url loaded = Val CALBEARS_TICKETS_URL.
Proof.
  assert (Hs : sportsTagged awayGame) by (apply isSportsEvent_sportsTagged; reflexivity).
  split; [reflexivity | split; [exact Hs | split; [reflexivity|]]].
  destruct (proj1 (proj2 (loadedEvents_rewrites_sports_links (Val [aiEthicsTalk; awayGame])))
              1%nat awayGame eq_refl)
    as (loaded & Hn & _ & _ & _ & _ & _ & _ & _ & _ & Hu & _).
  exists loaded. split; [exact Hn | exact (Hu Hs)].
Defined.

Lemma keepEvent_withUrl : forall h now filters event,
  keepEvent h now filters (fixSportsUrl event) = keepEvent h now filters event.
Proof.
  intros h now filters event. unfold fixSportsUrl.
  destruct (serviceIsSportsEvent event); reflexivity.
Qed.

Lemma arrayFilter_map : forall (A : Type) (f : A -> Completion bool) (g : A -> A) l,
  (forall x, f (g x) = f x) ->
  arrayFilter f (map g l) = mapCompletion (map g) (arrayFilter f l).
Proof.
  intros A f g l H. induction l as [|x l IH]; [reflexivity|].
  cbn [map arrayFilter]. rewrite H, IH.
  destruct (f x) as [b|err]; cbn [bind mapCompletion]; [|reflexivity].
  destruct (arrayFilter f l) as [kept|err]; cbn [bind mapCompletion]; [|reflexivity].
  destruct b; reflexivity.
Qed.

(** X11. The link rewriting done at load time does not change which
    events a filter pass shows: filtering the loaded batch gives the
    events that filtering the snapshot's batch gives, with their links
    rewritten, and throws when that throws. *)
Theorem filteredEvents_of_loaded : forall h now filters snapshotEvents,
  filteredEvents h now filters (loadedEvents (Val snapshotEvents)) =
  mapCompletion (map fixSportsUrl) (filteredEvents h now filters snapshotEvents).
Proof.
  intros h now filters snapshotEvents. unfold filteredEvents, loadedEvents.
  cbn [orEmptyArray]. apply arrayFilter_map. intros e. apply keepEvent_withUrl.
Qed.

(* ------------------------------------------------------------------ *)
(** ** The ingestion script *)


Lemma dedup_snoc : forall l x,
  dedup (l ++ [x]) = if arrayIncludes l x then dedup l else dedup l ++ [x].
Proof.
  induction l as [|y l IH]; intros x; [reflexivity|].
  cbn [app dedup]. rewrite IH. unfold arrayIncludes. cbn [existsb].
  fold (arrayIncludes l x). rewrite (String.eqb_sym x y).
  destruct (arrayIncludes l x).
  - now rewrite orb_true_r.
  - rewrite orb_false_r, filter_app. cbn [filter].
    destruct (String.eqb y x); cbn [negb]; [now rewrite app_nil_r | reflexivity].
Qed.

Lemma mapSet_keys : forall (V : Type) (m : list (string * V)) k v,
  map fst (mapSet m k v) =
  if arrayIncludes (map fst m) k then map fst m else map fst m ++ [k].
Proof.
  intros V. induction m as [|[k' v'] m IH]; intros k v; [reflexivity|].
  cbn [mapSet map fst]. unfold arrayIncludes. cbn [existsb].
  fold (arrayIncludes (map fst m) k). rewrite (String.eqb_sym k k').
  destruct (String.eqb k' k); cbn [orb map fst]; [reflexivity|].
  rewrite IH. destruct (arrayIncludes (map fst m) k); reflexivity.
Qed.

Lemma mapGet_mapSet : forall (V : Type) (m : list (string * V)) k v k',
  mapGet (mapSet m k v) k' = if String.eqb k k' then Some v else mapGet m k'.
Proof.
  intros V. induction m as [|[k0 v0] m IH]; intros k v k'.
  - reflexivity.
  - cbn [mapSet]. destruct (String.eqb_spec k0 k) as [-> | Hne]; cbn [mapGet].
    + destruct (String.eqb k k'); reflexivity.
    + rewrite IH. destruct (String.eqb_spec k0 k') as [-> | Hne'].
      * destruct (String.eqb_spec k k'); [congruence | reflexivity].
      * reflexivity.
Qed.

Lemma newMap_snoc : forall (V : Type) (entries : list (string * V)) e,
  newMap (entries ++ [e]) = mapSet (newMap entries) (fst e) (snd e).
Proof.
  intros V entries e. unfold newMap. now rewrite fold_left_app.
Qed.

Lemma newMap_keys : forall (V : Type) (entries : list (string * V)),
  map fst (newMap entries) = dedup (map fst entries).
Proof.
  intros V entries. induction entries as [|e entries IH] using rev_ind; [reflexivity|].
  rewrite newMap_snoc, mapSet_keys, IH, map_app. cbn [map].
  rewrite dedup_snoc. 
  assert (E : arrayIncludes (dedup (map fst entries)) (fst e)
              = arrayIncludes (map fst entries) (fst e)).
  { destruct (arrayIncludes (map fst entries) (fst e)) eqn:E1.
    - apply arrayIncludes_In. apply dedup_In. now apply arrayIncludes_In.
    - destruct (arrayIncludes (dedup (map fst entries)) (fst e)) eqn:E2; [|reflexivity].
      apply arrayIncludes_In in E2. apply (proj1 (dedup_In _ _)) in E2.
      apply (proj2 (arrayIncludes_In _ _)) in E2. congruence. }
  now rewrite E.
Qed.

Lemma newMap_get : forall (V : Type) (entries : list (string * V)) k,
  mapGet (newMap entries) k =
  option_map snd (find (fun e => String.eqb (fst e) k) (rev entries)).
Proof.
  intros V entries k. induction entries as [|e entries IH] using rev_ind; [reflexivity|].
  rewrite newMap_snoc, mapGet_mapSet, rev_app_distr. cbn [rev app find].
  destruct (String.eqb (fst e) k); [reflexivity | exact IH].
Qed.

Lemma mapGet_In : forall (V : Type) (m : list (string * V)) k v,
  NoDup (map fst m) -> (In (k, v) m <-> mapGet m k = Some v).
Proof.
  intros V. induction m as [|[k0 v0] m IH]; intros k v Hnd.
  - split; [contradiction | discriminate].
  - cbn [map fst] in Hnd. inversion Hnd as [|? ? Hnin Hnd']; subst.
    cbn [mapGet In]. destruct (String.eqb_spec k0 k) as [-> | Hne].
    + split.
      * intros [[= ->] | Hin]; [reflexivity|].
        exfalso. apply Hnin. apply in_map_iff. now exists (k, v).
      * intros [= ->]. now left.
    + rewrite <- (IH k v Hnd'). split.
      * intros [[= E1 E2] | Hin]; [exfalso; apply Hne; exact E1 | exact Hin].
      * intros Hin. now right.
Qed.

Lemma find_map_uri : forall (sources : list Grounding.GroundingSource) u,
  option_map snd (find (fun e : string * Grounding.GroundingSource => String.eqb (fst e) u)
                       (map (fun s => (Grounding.uri s, s)) sources))
  = find (fun s => String.eqb (Grounding.uri s) u) sources.
Proof.
  induction sources as [|s sources IH]; intros u; [reflexivity|].
  cbn [map find fst]. destruct (String.eqb (Grounding.uri s) u); [reflexivity | apply IH].
Qed.

(** X13. The sources written to the snapshot hold one source for each
    uri of the extracted list: the uris come in the order of their first
    occurrence, without repetition, and the source kept for a uri is the
    last one extracted with it (so its title is the last title seen). *)
Theorem uniqueSources_one_per_uri : forall sources,
  map Grounding.uri (uniqueSources sources) = dedup (map Grounding.uri sources) /\
  NoDup (map Grounding.uri (uniqueSources sources)) /\
  (forall s, In s (uniqueSources sources) <->
             lastWithUri (Grounding.uri s) sources = Some s).
Proof.
  intros sources. unfold uniqueSources, mapValues, lastWithUri.
  set (entries := map (fun s => (Grounding.uri s, s)) sources).
  assert (Hk : map fst (newMap entries) = dedup (map Grounding.uri sources)).
  { rewrite newMap_keys. unfold entries. rewrite map_map. reflexivity. }
  assert (Hnd : NoDup (map fst (newMap entries))) by (rewrite Hk; apply dedup_NoDup).
  assert (Hget : forall u, mapGet (newMap entries) u
                           = find (fun s => String.eqb (Grounding.uri s) u) (rev sources)).
  { intros u. rewrite newMap_get. unfold entries. rewrite <- map_rev. apply find_map_uri. }
  assert (Hkey : forall k v, In (k, v) (newMap entries) -> k = Grounding.uri v).
  { intros k v Hin. apply (mapGet_In _ _ _ _ Hnd) in Hin. rewrite Hget in Hin.
    apply find_some in Hin as [_ E]. apply String.eqb_eq in E. now symmetry. }
  assert (Hu : map Grounding.uri (map snd (newMap entries)) = map fst (newMap entries)).
  { rewrite map_map. apply map_ext_in. intros [k v] Hin. cbn [fst snd].
    symmetry. now apply Hkey. }
  split; [now rewrite Hu, Hk | split; [now rewrite Hu|]].
  intros s. rewrite <- Hget, <- (mapGet_In _ _ _ _ Hnd). rewrite in_map_iff. split.
  - intros [[k v] [E Hin]]. cbn [snd] in E. subst v.
    now rewrite <- (Hkey k s Hin).
  - intros Hin. now exists (Grounding.uri s, s).
Qed.


Lemma isoDateRegexTest_shape : forall s, isoDateRegexTest s = true <-> isoDateShape s.
Proof.
  intros s. unfold isoDateShape. split.
  - intros H. unfold isoDateRegexTest in H.
    do 10 (destruct s as [|? s]; [discriminate H|]).
    destruct s; [|discriminate H].
    cbn [forallb] in H. rewrite !andb_true_iff in H.
    destruct H as [[[[H1 Hs1] H2] Hs2] H3].
    apply Ascii.eqb_eq in Hs1, Hs2. subst.
    do 8 eexists. split; [reflexivity|].
    cbn [forallb]. rewrite !andb_true_iff. tauto.
  - intros (y1 & y2 & y3 & y4 & m1 & m2 & d1 & d2 & -> & H).
    cbn [forallb] in H. rewrite !andb_true_iff in H.
    cbn [isoDateRegexTest forallb]. rewrite !Ascii.eqb_refl, !andb_true_iff. tauto.
Qed.

Lemma parseDateOnly_isoDateRegexTest : forall s tv,
  parseDateOnly s = Some tv -> isoDateRegexTest s = true.
Proof.
  intros s tv H. unfold parseDateOnly in H.
  do 10 (destruct s as [|? s]; [discriminate H|]).
  destruct s; [|discriminate H].
  match type of H with
  | (if ?b then _ else _) = _ => destruct b eqn:E; [|discriminate H]
  end.
  cbn [forallb] in E. rewrite !andb_true_iff in E.
  cbn [isoDateRegexTest forallb]. rewrite !andb_true_iff. tauto.
Qed.

(** X12. The ingestion check keeps, in their order, exactly the events
    whose date is a string of four digits, a dash, two digits, a dash
    and two digits; an event whose date is missing or null is dropped.
    The check is on the shape only.  Every date that the filter parses
    by the date-only rule passes it, and for a kept event the filter
    either reads the date as a midnight of UTC or, where the month or
    the day does not exist, leaves it to the host's parser. *)
Theorem validEvents_date_shape : forall events,
  validEvents events
    = filter (fun event => isoDateRegexTest (toStringField (date event))) events /\
  (forall event,
     In event (validEvents events) <->
     In event events /\ exists s, date event = Val s /\ isoDateShape s) /\
  (forall event s tv,
     In event events -> date event = Val s -> parseDateOnly s = Some tv ->
     In event (validEvents events)) /\
  (forall h event,
     In event (validEvents events) ->
     (exists tv, newDate h (date event) = Some tv /\ TimeWithinDay tv = 0) \/
     (exists s, date event = Val s /\ parseDateOnly s = None /\
                newDate h (date event) = parseOther h s)).
Proof.
  intros events.
  assert (Hk : forall event,
             In event (validEvents events) <->
             In event events /\ exists s, date event = Val s /\ isoDateShape s).
  { intros event. unfold validEvents. rewrite filter_In, isoDateRegexTest_shape.
    split; intros [Hin H]; (split; [exact Hin|]).
    - destruct (date event) as [| |s]; cbn [toStringField] in H.
      + apply isoDateRegexTest_shape in H. discriminate H.
      + apply isoDateRegexTest_shape in H. discriminate H.
      + now exists s.
    - destruct H as (s & -> & H). exact H. }
  split; [reflexivity | split; [exact Hk | split]].
  - intros event s tv Hin Hd Hp. apply Hk. split; [exact Hin|].
    exists s. split; [exact Hd|].
    apply isoDateRegexTest_shape. now apply (parseDateOnly_isoDateRegexTest s tv).
  - intros h event Hin. apply Hk in Hin as (_ & s & Hd & _).
    rewrite Hd. cbn [newDate]. unfold Date_parse.
    destruct (parseDateOnly s) as [tv|] eqn:Ep.
    + left. exists tv. split; [reflexivity | now apply (parseDateOnly_midnight s)].
    + right. exists s. auto.
Qed.

(** The check does not look at ranges: the thirty-first of February is
    kept, and the filter leaves it to the host; a date in words and an
    event without a date are dropped. *)
Example validEvents_examples :
  validEvents [eventDated "2026-02-31"; undatedEvent; eventDated "2026-03-01";
               noDateEvent; eventDated "2026-3-1"]
    = [eventDated "2026-02-31"; eventDated "2026-03-01"] /\
  parseDateOnly "2026-02-31" = None /\
  parseDateOnly "2026-03-01" = Some 1772323200000.
Proof. repeat split. Qed.

Lemma arraySet_length : forall (A : Type) (a : list (option A)) i x,
  (i < List.length a)%nat -> List.length (arraySet a i x) = List.length a.
Proof.
  intros A. induction a as [|y a IH]; intros i x Hi; [inversion Hi|].
  destruct i as [|j]; cbn [arraySet List.length]; [reflexivity|].
  rewrite IH; [reflexivity | cbn [List.length] in Hi; lia].
Qed.

Lemma arraySet_same : forall (A : Type) (a : list (option A)) i x,
  (i < List.length a)%nat -> nth_error (arraySet a i x) i = Some (Some x).
Proof.
  intros A. induction a as [|y a IH]; intros i x Hi; [inversion Hi|].
  destruct i as [|j]; cbn [arraySet nth_error]; [reflexivity|].
  apply IH. cbn [List.length] in Hi. lia.
Qed.

Lemma arraySet_other : forall (A : Type) (a : list (option A)) i j x,
  (i < List.length a)%nat -> i <> j -> nth_error (arraySet a i x) j = nth_error a j.
Proof.
  intros A. induction a as [|y a IH]; intros i j x Hi Hne; [inversion Hi|].
  destruct i as [|i]; destruct j as [|j]; cbn [arraySet nth_error]; try reflexivity.
  - congruence.
  - apply IH; [cbn [List.length] in Hi; lia | congruence].
Qed.

Lemma remove_length_NoDup : forall (l : list nat) i,
  NoDup l -> In i l -> S (List.length (remove Nat.eq_dec i l)) = List.length l.
Proof.
  induction l as [|y l IH]; intros i Hnd Hin; [contradiction|].
  inversion Hnd as [|? ? Hnin Hnd']; subst. cbn [remove].
  destruct (Nat.eq_dec i y) as [-> | Hne].
  - rewrite notin_remove by exact Hnin. reflexivity.
  - cbn [List.length]. f_equal. apply IH; [exact Hnd'|].
    destruct Hin as [E | Hin]; [congruence | exact Hin].
Qed.

Lemma NoDup_remove_nat : forall (l : list nat) i, NoDup l -> NoDup (remove Nat.eq_dec i l).
Proof.
  induction l as [|y l IH]; intros i Hnd; [constructor|].
  inversion Hnd as [|? ? Hnin Hnd']; subst. cbn [remove].
  destruct (Nat.eq_dec i y); [now apply IH|].
  constructor; [|now apply IH].
  intros Hin. apply in_remove in Hin as [Hin _]. contradiction.
Qed.

Lemma takeIndex_invariant : forall hostnameOf fallbackMap events k s,
  List.length (Pool.results s) = List.length events ->
  NoDup (Pool.awaiting s) ->
  (forall i, In i (Pool.awaiting s) ->
             (i < List.length events)%nat /\ (i < Pool.index s)%nat) ->
  (forall i event,
      nth_error events i = Some event -> (i < Pool.index s)%nat ->
      ~ In i (Pool.awaiting s) ->
      exists r, nth_error (Pool.results s) i = Some r /\
                verifiedOrReplaced hostnameOf fallbackMap event r) ->
  (Pool.verified s + Pool.replaced s = k)%nat ->
  (k + List.length (Pool.awaiting s) = Nat.min (Pool.index s) (List.length events))%nat ->
  PoolInvariant hostnameOf fallbackMap events k (takeIndex (List.length events) s).
Proof.
  intros hostnameOf fallbackMap events k s Hlen Hnd Haw Hdone Hcount Hbal.
  unfold takeIndex.
  destruct (Nat.leb_spec (List.length events) (Pool.index s)) as [Hge | Hlt];
    constructor; cbn [Pool.index Pool.results Pool.verified Pool.replaced Pool.awaiting].
  - exact Hlen.
  - exact Hnd.
  - intros i Hi. destruct (Haw i Hi). split; lia.
  - intros i event He Hi Hnin. apply Hdone; [exact He | | exact Hnin].
    assert (i < List.length events)%nat by (apply nth_error_Some; congruence). lia.
  - exact Hcount.
  - lia.
  - intros _. lia.
  - exact Hlen.
  - apply NoDup_app; [exact Hnd | repeat constructor; intros [] |].
    intros i Hi [E | []]. destruct (Haw i Hi). lia.
  - intros i Hi. apply in_app_iff in Hi as [Hi | [E | []]].
    + destruct (Haw i Hi). split; lia.
    + split; lia.
  - intros i event He Hi Hnin.
    assert (Hne : i <> Pool.index s).
    { intros ->. apply Hnin. apply in_app_iff. right. now left. }
    apply Hdone; [exact He | lia |].
    intros Hin. apply Hnin. apply in_app_iff. now left.
  - exact Hcount.
  - rewrite length_app. cbn [List.length]. lia.
  - intros E. destruct (Pool.awaiting s); discriminate E.
Qed.

Lemma iter_takeIndex : forall n j,
  (j <= n)%nat ->
  Nat.iter j (takeIndex n)
    {| Pool.index := 0%nat; Pool.results := repeat None n;
       Pool.verified := 0%nat; Pool.replaced := 0%nat; Pool.awaiting := [] |}
  = {| Pool.index := j; Pool.results := repeat None n;
       Pool.verified := 0%nat; Pool.replaced := 0%nat; Pool.awaiting := seq 0 j |}.
Proof.
  intros n. induction j as [|j IH]; intros Hj; [reflexivity|].
  cbn [Nat.iter nat_rect]. change (nat_rect _ _ _ j) with
    (Nat.iter j (takeIndex n)
       {| Pool.index := 0%nat; Pool.results := repeat None n;
          Pool.verified := 0%nat; Pool.replaced := 0%nat; Pool.awaiting := [] |}).
  rewrite IH by lia. unfold takeIndex.
  cbn [Pool.index Pool.results Pool.verified Pool.replaced Pool.awaiting].
  destruct (Nat.leb_spec n j); [lia|]. now rewrite seq_S.
Qed.

Lemma startPool_invariant : forall hostnameOf fallbackMap events,
  PoolInvariant hostnameOf fallbackMap events 0 (startPool (List.length events)).
Proof.
  intros hostnameOf fallbackMap events. unfold startPool.
  rewrite iter_takeIndex by lia.
  constructor; cbn [Pool.index Pool.results Pool.verified Pool.replaced Pool.awaiting].
  - apply repeat_length.
  - apply seq_NoDup.
  - intros i Hi. apply in_seq in Hi. lia.
  - intros i event _ Hi Hnin. exfalso. apply Hnin. apply in_seq. lia.
  - reflexivity.
  - rewrite length_seq. lia.
  - intros E. unfold CONCURRENCY in E.
    destruct (List.length events); [lia | discriminate E].
Qed.

Lemma poolRun_invariant : forall hostnameOf fallbackMap events k s,
  poolRun hostnameOf fallbackMap events k s ->
  PoolInvariant hostnameOf fallbackMap events k s.
Proof.
  intros hostnameOf fallbackMap events k s H.
  induction H as [|k s i ok Hrun IH Hin]; [apply startPool_invariant|].
  destruct IH as [Hlen Hnd Haw Hdone Hcount Hbal Hidle].
  destruct (Haw i Hin) as [Hi _]. unfold resumeWorker.
  destruct (nth_error events i) as [event|] eqn:Ee;
    [|apply nth_error_None in Ee; lia].
  apply takeIndex_invariant;
    cbn [Pool.index Pool.results Pool.verified Pool.replaced Pool.awaiting].
  - rewrite arraySet_length by lia. exact Hlen.
  - now apply NoDup_remove_nat.
  - intros j Hj. apply in_remove in Hj as [Hj _]. now apply Haw.
  - intros j ev He Hj Hnin. destruct (Nat.eq_dec i j) as [<- | Hne].
    + rewrite Ee in He. injection He as <-.
      rewrite arraySet_same by lia. eexists. split; [reflexivity|].
      destruct ok; [now left | now right].
    + rewrite arraySet_other by (lia || exact Hne).
      apply Hdone; [exact He | exact Hj |].
      intros Hin'. apply Hnin. apply in_in_remove; [congruence | exact Hin'].
  - destruct ok; lia.
  - pose proof (remove_length_NoDup _ i Hnd Hin). lia.
Qed.

(** X15. The worker pool of [verifyEventUrls] handles every event
    exactly once, in whatever order the link checks complete and
    whatever they report.  After [k] completed checks [k] is at most the
    number of events, and all workers have returned exactly when [k] is
    that number.  Then the result array has one entry for each event, at
    the position of the event, holding the event itself or the event
    with only its link replaced by the fallback, and the two counters
    add up to the number of events. *)
Theorem verifyEventUrls_every_event_once : forall hostnameOf fallbackMap events k s,
  poolRun hostnameOf fallbackMap events k s ->
  (k <= List.length events)%nat /\
  (settled s <-> k = List.length events) /\
  (settled s ->
   List.length (Pool.results s) = List.length events /\
   (forall i event,
      nth_error events i = Some event ->
      exists r, nth_error (Pool.results s) i = Some r /\
                verifiedOrReplaced hostnameOf fallbackMap event r) /\
   (Pool.verified s + Pool.replaced s = List.length events)%nat).
Proof.
  intros hostnameOf fallbackMap events k s Hrun.
  destruct (poolRun_invariant _ _ _ _ _ Hrun) as [Hlen Hnd Haw Hdone Hcount Hbal Hidle].
  unfold settled.
  assert (Hset : Pool.awaiting s = [] -> k = List.length events).
  { intros E. specialize (Hidle E). rewrite E in Hbal. cbn [List.length] in Hbal. lia. }
  split; [lia | split; [split|]].
  - exact Hset.
  - intros ->. destruct (Pool.awaiting s); [reflexivity | cbn [List.length] in Hbal; lia].
  - intros E. split; [exact Hlen | split; [|rewrite Hcount; now apply Hset]].
    intros i event He. apply Hdone; [exact He | | rewrite E; intros []].
    specialize (Hidle E).
    assert (i < List.length events)%nat by (apply nth_error_Some; congruence). lia.
Qed.

Lemma verifyEventUrls_every_event_once_witness :
  let hostnameOf : UrlParser := fun _ => None in
  let events := [aiEthicsTalk; awayGame] in
  let s := resumeWorker hostnameOf [] events 0%nat true
             (resumeWorker hostnameOf [] events 1%nat false
                (startPool (List.length events))) in
  poolRun hostnameOf [] events 2%nat s /\
  (2 <= List.length events)%nat /\
  (settled s <-> 2%nat = List.length events) /\
  (settled s ->
   List.length (Pool.results s) = List.length events /\
   (forall i event,
      nth_error events i = Some event ->
      exists r, nth_error (Pool.results s) i = Some r /\
                verifiedOrReplaced hostnameOf [] event r) /\
   (Pool.verified s + Pool.replaced s = List.length events)%nat).
Proof.
  intros hostnameOf events s.
  assert (Hrun : poolRun hostnameOf [] events 2%nat s).
  { apply (run_step hostnameOf [] events 1%nat _ 0%nat true).
    - apply (run_step hostnameOf [] events 0%nat _ 1%nat false).
      + apply run_start.
      + vm_compute. right. left. reflexivity.
    - vm_compute. left. reflexivity. }
  split; [exact Hrun|].
  exact (verifyEventUrls_every_event_once hostnameOf [] events 2%nat s Hrun).
Defined.


Lemma buildFallbackMap_get_from : forall hostnameOf urls m host,
  mapGet
    (fold_left
       (fun m url =>
          match hostnameOf url with
          | Some host => if negb (mapHas m host) then mapSet m host url else m
          | None => m
          end)
       urls m) host
  = match mapGet m host with
    | Some u => Some u
    | None => find (hasHost hostnameOf host) urls
    end.
Proof.
  intros hostnameOf. induction urls as [|url urls IH]; intros m host.
  - cbn [fold_left find]. destruct (mapGet m host); reflexivity.
  - cbn [fold_left find]. rewrite IH. unfold hasHost at 2.
    destruct (hostnameOf url) as [h|]; [|reflexivity].
    unfold mapHas. destruct (mapGet m h) as [u|] eqn:Eh; cbn [negb].
    + destruct (String.eqb_spec h host) as [<- | Hne]; [now rewrite Eh | reflexivity].
    + rewrite mapGet_mapSet.
      destruct (String.eqb_spec h host) as [<- | Hne]; [now rewrite Eh | reflexivity].
Qed.

Lemma buildFallbackMap_get : forall hostnameOf urls host,
  mapGet (buildFallbackMap hostnameOf urls) host = find (hasHost hostnameOf host) urls.
Proof.
  intros hostnameOf urls host. unfold buildFallbackMap.
  now rewrite buildFallbackMap_get_from.
Qed.

(** X16. The link that replaces a broken one is never empty: it is the
    default calendar page, or else the first priority source whose host
    name is the host name of the broken link.  It is the default page
    whenever the broken link has no host name (it does not parse) or no
    priority source is on its host. *)
Theorem fallback_is_first_source_on_same_host : forall hostnameOf urls event,
  (fallbackFor hostnameOf (buildFallbackMap hostnameOf urls) event = DEFAULT_FALLBACK \/
   exists host,
     hostnameOf (toStringField (url event)) = Some host /\
     find (hasHost hostnameOf host) urls
       = Some (fallbackFor hostnameOf (buildFallbackMap hostnameOf urls) event) /\
     In (fallbackFor hostnameOf (buildFallbackMap hostnameOf urls) event) urls /\
     hostnameOf (fallbackFor hostnameOf (buildFallbackMap hostnameOf urls) event) = Some host) /\
  fallbackFor hostnameOf (buildFallbackMap hostnameOf urls) event <> EmptyString /\
  (forall host,
     hostnameOf (toStringField (url event)) = Some host ->
     find (hasHost hostnameOf host) urls = None ->
     fallbackFor hostnameOf (buildFallbackMap hostnameOf urls) event = DEFAULT_FALLBACK) /\
  (hostnameOf (toStringField (url event)) = None ->
   fallbackFor hostnameOf (buildFallbackMap hostnameOf urls) event = DEFAULT_FALLBACK).
Proof.
  intros hostnameOf urls event. unfold fallbackFor.
  destruct (hostnameOf (toStringField (url event))) as [host|].
  - rewrite buildFallbackMap_get.
    destruct (find (hasHost hostnameOf host) urls) as [u|] eqn:Ef.
    + destruct (String.eqb_spec u EmptyString) as [-> | Hne].
      * split; [now left | split; [discriminate | split; [reflexivity | reflexivity]]].
      * split; [|split; [exact Hne | split; [|discriminate]]].
        -- right. exists host. split; [reflexivity | split; [exact Ef|]].
           apply find_some in Ef as [Hin Hh]. split; [exact Hin|].
           unfold hasHost in Hh. destruct (hostnameOf u) as [h|]; [|discriminate].
           apply String.eqb_eq in Hh. now subst.
        -- intros h [= <-] E. congruence.
    + split; [now left | split; [discriminate | split; [reflexivity | reflexivity]]].
  - split; [now left | split; [discriminate | split; [reflexivity | reflexivity]]].
Qed.

(** *** Finding the array in the answer *)

Lemma indexOfChar_none : forall c s, indexOfChar c s = None <-> lacksChar c s.
Proof.
  intros c. unfold lacksChar. induction s as [|d r IH]; [now split|].
  cbn [indexOfChar allChars]. destruct (Ascii.eqb d c); cbn [negb andb].
  - split; discriminate.
  - rewrite <- IH. destruct (indexOfChar c r); split; (discriminate || reflexivity).
Qed.

Lemma lastIndexOfChar_none : forall c s, lastIndexOfChar c s = None <-> lacksChar c s.
Proof.
  intros c. unfold lacksChar. induction s as [|d r IH]; [now split|].
  cbn [lastIndexOfChar allChars]. destruct (lastIndexOfChar c r) as [j|].
  - split; [discriminate|]. intros H. apply andb_true_iff in H as [_ H].
    apply IH in H. discriminate.
  - destruct (Ascii.eqb d c); cbn [negb andb].
    + split; discriminate.
    + split; [intros _; now apply IH | reflexivity].
Qed.

Lemma indexOfChar_some : forall c s i,
  indexOfChar c s = Some i ->
  exists pre post, s = (pre ++ String c post)%string /\ String.length pre = i /\ lacksChar c pre.
Proof.
  intros c. induction s as [|d r IH]; intros i H; [discriminate|].
  cbn [indexOfChar] in H. destruct (Ascii.eqb_spec d c) as [-> | Hne].
  - injection H as <-. exists EmptyString, r. repeat split.
  - destruct (indexOfChar c r) as [j|]; [|discriminate]. injection H as <-.
    destruct (IH j eq_refl) as (pre & post & -> & Hl & Hn).
    exists (String d pre), post. split; [reflexivity | split; [cbn; now rewrite Hl|]].
    unfold lacksChar in *. cbn [allChars]. rewrite Hn.
    apply Ascii.eqb_neq in Hne. now rewrite Hne.
Qed.

Lemma lastIndexOfChar_some : forall c s j,
  lastIndexOfChar c s = Some j ->
  exists pre post, s = (pre ++ String c post)%string /\ String.length pre = j /\ lacksChar c post.
Proof.
  intros c. induction s as [|d r IH]; intros j H; [discriminate|].
  cbn [lastIndexOfChar] in H. destruct (lastIndexOfChar c r) as [j'|] eqn:E.
  - injection H as <-. destruct (IH j' eq_refl) as (pre & post & -> & Hl & Hn).
    exists (String d pre), post. split; [reflexivity | split; [cbn; now rewrite Hl | exact Hn]].
  - destruct (Ascii.eqb_spec d c) as [-> | Hne]; [|discriminate].
    injection H as <-. exists EmptyString, r. split; [reflexivity | split; [reflexivity|]].
    now apply lastIndexOfChar_none.
Qed.

Lemma substring_middle : forall pre m post,
  substring (String.length pre) (String.length m) (pre ++ m ++ post) = m.
Proof.
  induction pre as [|c pre IH]; intros m post.
  - cbn [String.length append]. induction m as [|d m IHm]; cbn.
    + destruct post; reflexivity.
    + now rewrite IHm.
  - cbn [String.length append substring]. apply IH.
Qed.

(** Two ways to cut the same text: the earlier cut splits the part
    before the later one. *)
Lemma two_cuts : forall pre1 c1 post1 pre2 c2 post2,
  (pre1 ++ String c1 post1)%string = (pre2 ++ String c2 post2)%string ->
  (String.length pre1 < String.length pre2)%nat ->
  exists mid, pre2 = (pre1 ++ String c1 mid)%string /\ post1 = (mid ++ String c2 post2)%string.
Proof.
  induction pre1 as [|d pre1 IH]; intros c1 post1 pre2 c2 post2 H Hl.
  - destruct pre2 as [|e pre2]; [cbn in Hl; lia|].
    cbn [append] in H. injection H as -> ->. now exists pre2.
  - destruct pre2 as [|e pre2]; [cbn in Hl; lia|].
    cbn [append] in H. injection H as -> H.
    destruct (IH c1 post1 pre2 c2 post2 H) as (mid & -> & ->); [cbn in Hl; lia|].
    now exists mid.
Qed.

Lemma length_append : forall a b : string,
  String.length (a ++ b) = (String.length a + String.length b)%nat.
Proof.
  induction a as [|c a IH]; intros b; [reflexivity|]. cbn. now rewrite IH.
Qed.

Lemma string_app_assoc : forall a b c : string,
  ((a ++ b) ++ c)%string = (a ++ b ++ c)%string.
Proof.
  induction a as [|d a IH]; intros b c; [reflexivity|]. cbn [append]. now rewrite IH.
Qed.

Lemma lacksChar_app : forall c a b,
  lacksChar c (a ++ b) <-> lacksChar c a /\ lacksChar c b.
Proof.
  intros c. unfold lacksChar. induction a as [|d a IH]; intros b.
  - cbn. tauto.
  - cbn [append allChars]. rewrite !andb_true_iff, IH. tauto.
Qed.

(** X14. Which part of the model's answer is parsed as the array of
    events.  Nothing is parsed exactly when the answer has no opening
    bracket or no closing bracket.  Otherwise, when the first opening
    bracket comes before the last closing one, the text parsed runs from
    the one to the other, both included; when the last closing bracket
    comes first, [substring] swaps its arguments and the text parsed is
    what lies strictly between the two brackets, with neither of them. *)
Theorem extractArrayText_span : forall text,
  (extractArrayText text = None <-> lacksChar "[" text \/ lacksChar "]" text) /\
  (forall s,
     extractArrayText text = Some s ->
     (exists pre mid post,
        text = (pre ++ "[" ++ mid ++ "]" ++ post)%string /\
        lacksChar "[" pre /\ lacksChar "]" post /\
        s = ("[" ++ mid ++ "]")%string) \/
     (exists pre mid post,
        text = (pre ++ "]" ++ mid ++ "[" ++ post)%string /\
        lacksChar "[" (pre ++ "]" ++ mid) /\ lacksChar "]" (mid ++ "[" ++ post) /\
        s = mid)).
Proof.
  intros text. unfold extractArrayText. split.
  - destruct (indexOfChar "[" text) as [i|] eqn:Ei.
    + destruct (lastIndexOfChar "]" text) as [j|] eqn:Ej.
      * split; [discriminate|]. intros [H | H].
        -- apply indexOfChar_none in H. congruence.
        -- apply lastIndexOfChar_none in H. congruence.
      * split; [|reflexivity]. intros _. right. now apply lastIndexOfChar_none.
    + split; [|reflexivity]. intros _. left. now apply indexOfChar_none.
  - intros s H.
    destruct (indexOfChar "[" text) as [i|] eqn:Ei; [|discriminate].
    destruct (lastIndexOfChar "]" text) as [j|] eqn:Ej; [|discriminate].
    injection H as <-.
    destruct (indexOfChar_some _ _ _ Ei) as (pre1 & post1 & E1 & L1 & N1).
    destruct (lastIndexOfChar_some _ _ _ Ej) as (pre2 & post2 & E2 & L2 & N2).
    assert (Hne : i <> j).
    { intros ->. rewrite E1 in E2. rewrite <- L2 in L1.
      clear - E2 L1. revert pre2 E2 L1.
      induction pre1 as [|c p IH]; intros [|d q] E L; try discriminate L.
      - discriminate E.
      - cbn [append] in E. injection E as _ E. injection L as L. now apply (IH q). }
    unfold jsSubstring. destruct (Nat.lt_ge_cases i j) as [Hlt | Hge].
    + left. rewrite E1 in E2.
      destruct (two_cuts _ _ _ _ _ _ E2 ltac:(lia)) as (mid & -> & ->).
      exists pre1, mid, post2. split; [exact E1 | split; [exact N1 | split; [exact N2|]]].
      rewrite E1.
      replace (Nat.min i (j + 1)) with (String.length pre1) by lia.
      replace (Nat.max i (j + 1) - String.length pre1)%nat
        with (String.length ("[" ++ mid ++ "]")).
      * replace (pre1 ++ String "[" (mid ++ String "]" post2))%string
          with (pre1 ++ ("[" ++ mid ++ "]") ++ post2)%string
          by (cbn [append]; rewrite string_app_assoc; reflexivity).
        apply substring_middle.
      * rewrite length_append in L2. cbn [String.length] in L2.
        cbn [append String.length]. rewrite length_append. cbn [String.length]. lia.
    + right. assert (Hlt : (j < i)%nat) by lia. rewrite E2 in E1.
      destruct (two_cuts _ _ _ _ _ _ E1 ltac:(lia)) as (mid & -> & ->).
      exists pre2, mid, post1. split; [exact E2|].
      split; [exact N1 | split; [exact N2|]].
      rewrite E2.
      replace (Nat.min i (j + 1)) with (String.length (pre2 ++ "]")).
      * replace (Nat.max i (j + 1) - String.length (pre2 ++ "]"))%nat
          with (String.length mid).
        -- replace (pre2 ++ String "]" (mid ++ String "[" post1))%string
             with ((pre2 ++ "]") ++ mid ++ String "[" post1)%string
             by (rewrite string_app_assoc; reflexivity).
           apply substring_middle.
        -- rewrite !length_append in *. cbn [String.length] in *. lia.
      * rewrite !length_append in *. cbn [String.length] in *. lia.
Qed.
